(** * SM3 incremental digest (sm3.go): buffering, padding and finalization

    A shallow embedding of the streaming layer of the SM3 hash: the [digest]
    struct, [Write], the [Sum] method, [Reset], [checkSum], the byte-order
    helpers and the one-shot [Sum].  Integers are [Z] with the wrap-around of
    their Go type written out, byte slices are [list byte], a panic is the
    [Panic] result, and a method with a pointer receiver returns the receiver
    it leaves behind. *)

From Stdlib Require Import String.
From Stdlib.Strings Require Import Byte.
From Stdlib Require Import ZArith List Lia ZifyNat Bool.
Import ListNotations.
Local Open Scope Z_scope.

(** [lia] also decides goals with division and remainder by a constant. *)
Ltac Zify.zify_post_hook ::= Z.to_euclidean_division_equations.

(** ** Results: a value or a Go panic *)

Inductive result (A : Type) : Type :=
| Ok (a : A)
| Panic (msg : string).
Arguments Ok {A} a.
Arguments Panic {A} msg.

Definition bind {A B : Type} (r : result A) (k : A -> result B) : result B :=
  match r with
  | Ok a => k a
  | Panic msg => Panic msg
  end.

Notation "x <- e1 ;; e2" := (bind e1 (fun x => e2))
  (at level 61, e1 at next level, right associativity).
Notation "' pat <- e1 ;; e2" := (bind e1 (fun x => match x with pat => e2 end))
  (at level 61, pat pattern, e1 at next level, right associativity).

(** Go's [error] interface; [nil] is [None]. *)
Definition error : Type := option string.
Definition nil_error : error := None.

(** ** Machine integers and bytes *)

Definition uint64 (z : Z) : Z := z mod 2 ^ 64.
Definition uint32 (z : Z) : Z := z mod 2 ^ 32.

(** The conversion [byte(s)]: the low eight bits. *)
Definition byte_of_Z (z : Z) : byte :=
  match Byte.of_N (Z.to_N (z mod 256)) with
  | Some b => b
  | None => x00
  end.

Definition Z_of_byte (b : byte) : Z := Z.of_N (Byte.to_N b).

(** [len(p)] as an [int]. *)
Definition len_ {A : Type} (p : list A) : Z := Z.of_nat (length p).

(** The slice expressions [p[i:]] and [p[:j]]. *)
Definition slice_from {A : Type} (p : list A) (i : Z) : list A := skipn (Z.to_nat i) p.
Definition slice_to {A : Type} (p : list A) (j : Z) : list A := firstn (Z.to_nat j) p.

(** The builtin [copy(dst[off:], src)] seen from the array [dst]: it
    overwrites [min(len(dst) - off, len(src))] elements starting at [off] and
    returns that count with the updated array. *)
Definition copy {A : Type} (dst : list A) (off : Z) (src : list A) : list A * Z :=
  let n := Z.min (len_ dst - off) (len_ src) in
  (slice_to dst off ++ slice_to src n ++ slice_from dst (off + n), n).

(** ** Constants *)

Definition Size : Z := 32.
Definition BlockSize : Z := 64.
Definition chunk : Z := BlockSize.

(** The array type [[8]uint32]. *)
Record words8 : Type := W8 {
  w0 : Z; w1 : Z; w2 : Z; w3 : Z; w4 : Z; w5 : Z; w6 : Z; w7 : Z
}.

Definition iv : words8 :=
  W8 0x7380166f 0x4914b2b9 0x172442d7 0xda8a0600
     0xa96f30bc 0x163138aa 0xe38dee4d 0xb0fb0e4e.

Definition zero_words : words8 := W8 0 0 0 0 0 0 0 0.

(** ** The digest struct *)

Record digest : Type := mkDigest {
  h : words8;
  x : list byte;
  nx : Z;
  len : Z
}.

Definition set_h (d : digest) (v : words8) : digest := mkDigest v (x d) (nx d) (len d).
Definition set_x (d : digest) (v : list byte) : digest := mkDigest (h d) v (nx d) (len d).
Definition set_nx (d : digest) (v : Z) : digest := mkDigest (h d) (x d) v (len d).
Definition set_len (d : digest) (v : Z) : digest := mkDigest (h d) (x d) (nx d) v.

(** The zero value that [new(digest)] and [var d digest] allocate. *)
Definition zero_digest : digest := mkDigest zero_words (repeat x00 64) 0 0.

(** ** Byte-order helpers *)

(** Assigning [x[i] = b] on a slice already known to be long enough. *)
Fixpoint set_index (l : list byte) (i : nat) (b : byte) : list byte :=
  match l, i with
  | [], _ => []
  | _ :: t, O => b :: t
  | a :: t, S j => a :: set_index t j b
  end.

Definition putUint64 (x : list byte) (s : Z) : result (list byte) :=
  if len_ x <=? 7 then Panic "index out of range" else
  let x := set_index x 0 (byte_of_Z (Z.shiftr s 56)) in
  let x := set_index x 1 (byte_of_Z (Z.shiftr s 48)) in
  let x := set_index x 2 (byte_of_Z (Z.shiftr s 40)) in
  let x := set_index x 3 (byte_of_Z (Z.shiftr s 32)) in
  let x := set_index x 4 (byte_of_Z (Z.shiftr s 24)) in
  let x := set_index x 5 (byte_of_Z (Z.shiftr s 16)) in
  let x := set_index x 6 (byte_of_Z (Z.shiftr s 8)) in
  let x := set_index x 7 (byte_of_Z s) in
  Ok x.

Definition putUint32 (x : list byte) (s : Z) : result (list byte) :=
  if len_ x <=? 3 then Panic "index out of range" else
  let x := set_index x 0 (byte_of_Z (Z.shiftr s 24)) in
  let x := set_index x 1 (byte_of_Z (Z.shiftr s 16)) in
  let x := set_index x 2 (byte_of_Z (Z.shiftr s 8)) in
  let x := set_index x 3 (byte_of_Z s) in
  Ok x.

(** [putUint32(digest[off:], s)]: the slice shares the array, so the four
    bytes land at [off .. off+3] of [digest]. *)
Definition putUint32_at (digest : list byte) (off : Z) (s : Z) : result (list byte) :=
  tl <- putUint32 (slice_from digest off) s ;;
  Ok (slice_to digest off ++ tl).

(** ** The standard compression transform

    Modelled from the spec: the compression transform (section 4.1), whose
    code is not part of sm3.go.  Message expansion, the 64 rounds and the
    feed-forward follow section 4.1; the two round constants and the boolean
    functions are those of the SM3 standard that the package cites.  The
    streaming results below hold for every transform; this one instantiates
    them on concrete inputs. *)
Module Compress.

Definition rotl (v : Z) (k : Z) : Z :=
  uint32 (Z.lor (Z.shiftl v k) (Z.shiftr v (32 - k))).

Definition P0 (v : Z) : Z := Z.lxor v (Z.lxor (rotl v 9) (rotl v 17)).
Definition P1 (v : Z) : Z := Z.lxor v (Z.lxor (rotl v 15) (rotl v 23)).

Definition T (j : Z) : Z := if j <? 16 then 0x79cc4519 else 0x7a879d8a.

Definition FF (j : Z) (a b c : Z) : Z :=
  if j <? 16 then Z.lxor a (Z.lxor b c)
  else Z.lor (Z.land a b) (Z.lor (Z.land a c) (Z.land b c)).

Definition GG (j : Z) (e f g : Z) : Z :=
  if j <? 16 then Z.lxor e (Z.lxor f g)
  else Z.lor (Z.land e f) (Z.land (Z.lxor e 0xffffffff) g).

(** Big-endian 32-bit words of a block. *)
Fixpoint words_be (n : nat) (p : list byte) : list Z :=
  match n with
  | O => []
  | S n' =>
      let b i := Z_of_byte (nth i p x00) in
      Z.lor (Z.shiftl (b 0%nat) 24)
        (Z.lor (Z.shiftl (b 1%nat) 16) (Z.lor (Z.shiftl (b 2%nat) 8) (b 3%nat)))
      :: words_be n' (skipn 4 p)
  end.

(** Message expansion; [wrev] holds the words computed so far, newest first. *)
Fixpoint expand (n : nat) (wrev : list Z) : list Z :=
  match n with
  | O => wrev
  | S n' =>
      let w i := nth i wrev 0 in
      let v := Z.lxor (P1 (Z.lxor (w 15%nat) (Z.lxor (w 8%nat) (rotl (w 2%nat) 15))))
                 (Z.lxor (rotl (w 12%nat) 7) (w 5%nat)) in
      expand n' (v :: wrev)
  end.

Definition round (w : list Z) (j : nat) (r : words8) : words8 :=
  let '(W8 a b c d e f g hh) := r in
  let jz := Z.of_nat j in
  let wj := nth j w 0 in
  let wj' := Z.lxor wj (nth (j + 4) w 0) in
  let ss1 := rotl (uint32 (rotl a 12 + e + rotl (T jz) (jz mod 32))) 7 in
  let ss2 := Z.lxor ss1 (rotl a 12) in
  let tt1 := uint32 (FF jz a b c + d + ss2 + wj') in
  let tt2 := uint32 (GG jz e f g + hh + ss1 + wj) in
  W8 tt1 a (rotl b 9) c (P0 tt2) e (rotl f 19) g.

Definition transform (v : words8) (p : list byte) : words8 :=
  let w := rev (expand 52 (rev (words_be 16 p))) in
  let r := fold_left (fun r j => round w j r) (seq 0 64) v in
  W8 (Z.lxor (w0 r) (w0 v)) (Z.lxor (w1 r) (w1 v)) (Z.lxor (w2 r) (w2 v))
     (Z.lxor (w3 r) (w3 v)) (Z.lxor (w4 r) (w4 v)) (Z.lxor (w5 r) (w5 v))
     (Z.lxor (w6 r) (w6 v)) (Z.lxor (w7 r) (w7 v)).

End Compress.

Section Streaming.

(** The compression transform of one 64-byte block.  It lives in the block
    routine, which is not part of sm3.go; the streaming layer only relies on
    it being a function of the state words and the block. *)
Variable transform : words8 -> list byte -> words8.

(** Modelled from the spec: [block], the routine of the package that sm3.go
    calls and does not define.  Sections 2 and 4.2 describe it: input is
    consumed in 64-byte chunks by repeated transform calls, in order, and
    only the eight state words are mutated. *)
Fixpoint block_loop (n : nat) (hs : words8) (p : list byte) : words8 :=
  match n with
  | O => hs
  | S n' => block_loop n' (transform hs (firstn 64 p)) (skipn 64 p)
  end.

Definition block (d : digest) (p : list byte) : digest :=
  set_h d (block_loop (Z.to_nat (len_ p / chunk)) (h d) p).

(** ** Write *)

(** The statement [if d.nx > 0 { ... }]: top up a partly filled buffer and
    transform it once it is full.  Slicing the array [d.x], of type
    [[chunk]byte], at [d.nx] panics beyond [chunk]. *)
Definition Write_top (d : digest) (p : list byte) : result (digest * list byte) :=
  if 0 <? nx d then
    if chunk <? nx d then Panic "slice bounds out of range" else
    let '(x', n) := copy (x d) (nx d) p in
    let d := set_nx (set_x d x') (nx d + n) in
    let d := if nx d =? chunk then set_nx (block d (x d)) 0 else d in
    Ok (d, slice_from p n)
  else Ok (d, p).

(** The statement [if len(p) >= chunk { ... }]: the complete blocks of [p]
    go to [block] directly. *)
Definition Write_full (d : digest) (p : list byte) : digest * list byte :=
  if chunk <=? len_ p then
    let n := Z.ldiff (len_ p) (chunk - 1) in
    (block d (slice_to p n), slice_from p n)
  else (d, p).

(** The statement [if len(p) > 0 { ... }]: what is left is buffered. *)
Definition Write_keep (d : digest) (p : list byte) : digest :=
  if 0 <? len_ p then
    let '(x', n) := copy (x d) 0 p in set_nx (set_x d x') n
  else d.

Definition Write (d : digest) (p : list byte) : result (digest * (Z * error)) :=
  let nn := len_ p in
  let d := set_len d (uint64 (len d + uint64 nn)) in
  '(d, p) <- Write_top d p ;;
  let '(d, p) := Write_full d p in
  let d := Write_keep d p in
  Ok (d, (nn, nil_error)).

(** ** Reset, Size, BlockSize, New *)

Definition Reset (d : digest) : digest :=
  set_len (set_nx (set_h d iv) 0) 0.

Definition digest_Size (d : digest) : Z := Size.
Definition digest_BlockSize (d : digest) : Z := BlockSize.

Definition New : digest := Reset zero_digest.

(** ** checkSum *)

(** The scratch array [tmp] after [tmp[0] = 0x80]. *)
Definition tmp0 : list byte := set_index (repeat x00 64) 0 x80.

(** The first half of [checkSum]: the two padding writes, up to the test of
    [d.nx].  Returns the receiver together with the two slices written. *)
Definition checkSum_pad (d : digest) : result (digest * (list byte * list byte)) :=
  let len0 := len d in
  let tmp := tmp0 in
  let pad := if len0 mod 64 <? 56
             then slice_to tmp (56 - len0 mod 64)
             else slice_to tmp (64 + 56 - len0 mod 64) in
  '(d, _) <- Write d pad ;;
  let len1 := uint64 (Z.shiftl len0 3) in
  tmp <- putUint64 tmp len1 ;;
  '(d, _) <- Write d (slice_to tmp 8) ;;
  Ok (d, (pad, slice_to tmp 8)).

Definition checkSum (d : digest) : result (digest * list byte) :=
  '(d, _) <- checkSum_pad d ;;
  if negb (nx d =? 0) then Panic "d.nx != 0" else
  let digest := repeat x00 32 in
  digest <- putUint32_at digest 0 (w0 (h d)) ;;
  digest <- putUint32_at digest 4 (w1 (h d)) ;;
  digest <- putUint32_at digest 8 (w2 (h d)) ;;
  digest <- putUint32_at digest 12 (w3 (h d)) ;;
  digest <- putUint32_at digest 16 (w4 (h d)) ;;
  digest <- putUint32_at digest 20 (w5 (h d)) ;;
  digest <- putUint32_at digest 24 (w6 (h d)) ;;
  digest <- putUint32_at digest 28 (w7 (h d)) ;;
  Ok (d, digest).

(** ** The Sum method and the one-shot Sum *)

(** [d0.Sum(b)]: [checkSum] runs on the copy [d := *d0]; the receiver handed
    back is [d0] itself. *)
Definition digest_Sum (d0 : digest) (b : list byte) : result (digest * list byte) :=
  let d := d0 in
  '(_, hash) <- checkSum d ;;
  Ok (d0, b ++ hash).

Definition Sum (data : list byte) : result (list byte) :=
  let d := zero_digest in
  let d := Reset d in
  '(d, _) <- Write d data ;;
  '(_, hash) <- checkSum d ;;
  Ok hash.

(** ** Test harness: a sequence of writes, reachable states *)

(** [d.Write(c1); ...; d.Write(cn)], results of the calls dropped. *)
Fixpoint Writes (d : digest) (cs : list (list byte)) : result digest :=
  match cs with
  | [] => Ok d
  | c :: cs' => '(d', _) <- Write d c ;; Writes d' cs'
  end.

(** The states a digest can be in: the one [New] returns, and whatever
    [Reset] and [Write] make of a reachable state.  (The [Sum] method leaves
    its receiver as it is.) *)
Inductive reachable : digest -> Prop :=
| reach_New : reachable New
| reach_Reset d : reachable d -> reachable (Reset d)
| reach_Write d p d' r : reachable d -> Write d p = Ok (d', r) -> reachable d'.

(** [d.Sum(nil)]: the digest of what has been written so far. *)
Definition Sum_nil (d : digest) : result (list byte) :=
  '(_, out) <- digest_Sum d [] ;; Ok out.

(** A fresh digest fed the chunks [cs] one by one, then asked for its sum. *)
Definition stream (cs : list (list byte)) : result (list byte) :=
  d <- Writes New cs ;; Sum_nil d.

(** ** Abstract view of a digest *)

(** The bytes buffered and not yet transformed. *)
Definition pending (d : digest) : list byte := slice_to (x d) (nx d).

(** The state words after all complete blocks of [data]. *)
Definition blocks (hs : words8) (data : list byte) : words8 :=
  block_loop (length data / 64)%nat hs data.

(** What is left of [data] after its complete blocks. *)
Definition rest (data : list byte) : list byte :=
  skipn (64 * (length data / 64))%nat data.

(** The representation invariant of the struct: a 64-byte buffer array, a
    fill-count below 64 and a byte counter within [uint64]. *)
Definition wf (d : digest) : Prop :=
  len_ (x d) = chunk /\ 0 <= nx d < chunk /\ 0 <= len d < 2 ^ 64.

(** The fill-count follows the byte counter. *)
Definition counted (d : digest) : Prop := nx d = len d mod 64.

(** Two digests that differ at most in the stale part of the buffer. *)
Definition equiv (d1 d2 : digest) : Prop :=
  h d1 = h d2 /\ pending d1 = pending d2 /\ nx d1 = nx d2 /\ len d1 = len d2.

(** ** Padding, as a byte string *)

(** Big-endian encoding of [v] on [n] bytes (the low [8 n] bits). *)
Fixpoint be_bytes (n : nat) (v : Z) : list byte :=
  match n with
  | O => []
  | S n' => byte_of_Z (v / 256 ^ Z.of_nat n') :: be_bytes n' v
  end.

(** Reading a byte string as a big-endian number. *)
Definition be_decode (l : list byte) : Z :=
  fold_left (fun acc b => acc * 256 + Z_of_byte b) l 0.

(** The first [n] 64-byte blocks of [p], in order. *)
Fixpoint chunks (n : nat) (p : list byte) : list (list byte) :=
  match n with
  | O => []
  | S n' => firstn 64 p :: chunks n' (skipn 64 p)
  end.


(** The padding with the [0x80] byte counted among the [56 - L mod 64]
    (or [64 + 56 - L mod 64]) bytes of the first write. *)
Definition padding (L : Z) : list byte :=
  x80 :: repeat x00 (Z.to_nat (if L mod 64 <? 56 then 56 - L mod 64 - 1
                               else 64 + 56 - L mod 64 - 1))
      ++ be_bytes 8 (L * 8).

(** The serialization of the state words: each word as four big-endian
    bytes, in state order. *)
Definition serialize (hs : words8) : list byte :=
  be_bytes 4 (w0 hs) ++ be_bytes 4 (w1 hs) ++ be_bytes 4 (w2 hs) ++ be_bytes 4 (w3 hs) ++
  be_bytes 4 (w4 hs) ++ be_bytes 4 (w5 hs) ++ be_bytes 4 (w6 hs) ++ be_bytes 4 (w7 hs).

(** The digest a state stands for: its buffered bytes are padded and run
    through the block loop, and the state words are serialized. *)
Definition digest_of (d : digest) : list byte :=
  serialize (blocks (h d) (pending d ++ padding (len d))).

(** * Properties *)

(** ** Arithmetic and list helpers *)

Lemma ldiff_chunk (n : Z) : 0 <= n -> Z.ldiff n (chunk - 1) = 64 * (n / 64).
Proof.
  intros Hn. change (chunk - 1) with (Z.ones 6).
  rewrite Z.ldiff_ones_r by lia.
  rewrite Z.shiftr_div_pow2, Z.shiftl_mul_pow2 by lia.
  change (2 ^ 6) with 64. lia.
Qed.

Lemma len_nonneg {A : Type} (l : list A) : 0 <= len_ l.
Proof. unfold len_. lia. Qed.

Lemma len_app {A : Type} (a b : list A) : len_ (a ++ b) = len_ a + len_ b.
Proof. unfold len_. rewrite length_app. lia. Qed.

Lemma slice_to_all {A : Type} (l : list A) (j : Z) : len_ l <= j -> slice_to l j = l.
Proof. unfold len_, slice_to. intros Hj. apply firstn_all2. lia. Qed.

Lemma slice_from_all {A : Type} (l : list A) (i : Z) : len_ l <= i -> slice_from l i = [].
Proof. unfold len_, slice_from. intros Hi. apply skipn_all2. lia. Qed.

Lemma len_slice_to {A : Type} (l : list A) (j : Z) :
  0 <= j <= len_ l -> len_ (slice_to l j) = j.
Proof. unfold len_, slice_to. intros Hj. rewrite length_firstn. lia. Qed.

Lemma len_slice_from {A : Type} (l : list A) (i : Z) :
  0 <= i <= len_ l -> len_ (slice_from l i) = len_ l - i.
Proof. unfold len_, slice_from. intros Hi. rewrite length_skipn. lia. Qed.

Lemma set_h_same (d : digest) : set_h d (h d) = d.
Proof. destruct d; reflexivity. Qed.

(** ** The block loop *)

Lemma block_loop_firstn (n : nat) :
  forall hs p, block_loop n hs (firstn (64 * n) p) = block_loop n hs p.
Proof.
  induction n as [|n IH]; intros hs p; cbn [block_loop]; [reflexivity|].
  rewrite firstn_firstn. replace (Nat.min 64 (64 * S n)) with 64%nat by lia.
  rewrite skipn_firstn_comm.
  replace (64 * S n - 64)%nat with (64 * n)%nat by lia.
  apply IH.
Qed.

Lemma block_loop_add (n k : nat) :
  forall hs p,
    block_loop (n + k) hs p = block_loop k (block_loop n hs p) (skipn (64 * n) p).
Proof.
  induction n as [|n IH]; intros hs p; cbn [block_loop Nat.add].
  - reflexivity.
  - rewrite IH, skipn_skipn.
    replace (64 * n + 64)%nat with (64 * S n)%nat by lia. reflexivity.
Qed.

Lemma blocks_short (hs : words8) (data : list byte) :
  (length data < 64)%nat -> blocks hs data = hs /\ rest data = data.
Proof.
  intros Hl. unfold blocks, rest.
  rewrite Nat.div_small by lia. split; reflexivity.
Qed.

Lemma rest_length (data : list byte) : length (rest data) = (length data mod 64)%nat.
Proof.
  unfold rest. rewrite length_skipn.
  pose proof (Nat.div_mod_eq (length data) 64). lia.
Qed.

Lemma blocks_step (hs : words8) (data : list byte) :
  (64 <= length data)%nat ->
  blocks hs data = blocks (transform hs (firstn 64 data)) (skipn 64 data) /\
  rest data = rest (skipn 64 data).
Proof.
  intros Hl. unfold blocks, rest. rewrite length_skipn.
  assert (Hq : (length data / 64 = S ((length data - 64) / 64))%nat).
  { replace (length data) with ((length data - 64) + 1 * 64)%nat at 1 by lia.
    rewrite Nat.div_add by lia. lia. }
  rewrite Hq. cbn [block_loop]. split; [reflexivity|].
  rewrite skipn_skipn. f_equal. lia.
Qed.

(** ** The three statements of Write *)

Lemma Write_full_spec (d : digest) (p : list byte) :
  Write_full d p = (set_h d (blocks (h d) p), rest p).
Proof.
  unfold Write_full. destruct (Z.leb_spec chunk (len_ p)) as [Hc|Hc].
  - rewrite ldiff_chunk by apply len_nonneg.
    unfold block, blocks, rest, slice_to, slice_from, len_, chunk, BlockSize in *.
    replace (Z.to_nat (64 * (Z.of_nat (length p) / 64))) with (64 * (length p / 64))%nat by lia.
    rewrite length_firstn.
    replace (Z.to_nat (Z.of_nat (Nat.min (64 * (length p / 64)) (length p)) / 64))
      with (length p / 64)%nat.
    + rewrite block_loop_firstn. reflexivity.
    + pose proof (Nat.div_mod_eq (length p) 64).
      replace (Nat.min (64 * (length p / 64)) (length p)) with (64 * (length p / 64))%nat by lia.
      rewrite Nat2Z.inj_mul. rewrite Z.mul_comm, Z.div_mul by lia. lia.
  - unfold chunk, BlockSize, len_ in Hc.
    destruct (blocks_short (h d) p) as [-> ->]; [lia|].
    rewrite set_h_same. reflexivity.
Qed.

Lemma Write_keep_spec (d : digest) (p : list byte) :
  len_ (x d) = chunk -> len_ p < chunk -> nx d = 0 ->
  h (Write_keep d p) = h d /\ len (Write_keep d p) = len d /\
  len_ (x (Write_keep d p)) = chunk /\
  nx (Write_keep d p) = len_ p /\ pending (Write_keep d p) = p.
Proof.
  intros Hx Hp Hn. unfold Write_keep, pending.
  destruct (Z.ltb_spec 0 (len_ p)) as [H0|H0].
  - unfold copy. cbn [set_nx set_x h x nx len].
    pose proof (len_nonneg p).
    replace (Z.min (len_ (x d) - 0) (len_ p)) with (len_ p) by lia.
    rewrite (slice_to_all p) by lia.
    change (slice_to (x d) 0) with (@nil byte). cbn [app].
    repeat split.
    + rewrite len_app, len_slice_from by lia. lia.
    + unfold slice_to, len_. rewrite Nat2Z.id, firstn_app, Nat.sub_diag, firstn_all.
      cbn [firstn]. apply app_nil_r.
  - pose proof (len_nonneg p). rewrite Hn.
    assert (p = []) as -> by (destruct p; [reflexivity | unfold len_ in *; cbn in *; lia]).
    repeat split; assumption.
Qed.

Lemma pending_length (d : digest) : wf d -> len_ (pending d) = nx d.
Proof.
  intros (Hx & Hn & _). unfold pending. apply len_slice_to. lia.
Qed.

Lemma Write_top_spec (d : digest) (p : list byte) :
  wf d ->
  exists d1 p1,
    Write_top d p = Ok (d1, p1) /\ len d1 = len d /\ len_ (x d1) = chunk /\
    ((nx d1 = 0 /\ blocks (h d1) p1 = blocks (h d) (pending d ++ p) /\
      rest p1 = rest (pending d ++ p)) \/
     (p1 = [] /\ h d1 = h d /\ pending d1 = pending d ++ p /\
      nx d1 = len_ (pending d ++ p) /\ 0 < nx d1 < chunk)).
Proof.
  intros Hwf. pose proof (pending_length d Hwf) as Hpl.
  destruct Hwf as (Hx & Hn & _). pose proof (len_nonneg p) as Hp0.
  unfold Write_top. destruct (Z.ltb_spec 0 (nx d)) as [Hpos|Hzero].
  - destruct (Z.ltb_spec chunk (nx d)) as [Hbad|_]; [lia|].
    unfold copy. cbn [set_nx set_x h x nx len].
    fold (pending d).
    destruct (Z.eqb_spec (nx d + Z.min (len_ (x d) - nx d) (len_ p)) chunk) as [Hfull|Hpart].
    + (* the buffer fills up: one block is transformed *)
      assert (Hmin : Z.min (len_ (x d) - nx d) (len_ p) = chunk - nx d) by lia.
      rewrite Hmin in *.
      replace (nx d + (chunk - nx d)) with chunk by lia.
      rewrite (slice_from_all (x d) chunk) by lia. rewrite app_nil_r.
      eexists _, _. split; [reflexivity|].
      cbn [set_nx set_x block set_h h x nx len].
      assert (Hlen : len_ (pending d ++ slice_to p (chunk - nx d)) = chunk).
      { rewrite len_app, len_slice_to by lia. lia. }
      repeat split; try assumption.
      left. split; [reflexivity|].
      assert (H64 : (64 <= length (pending d ++ p))%nat).
      { rewrite length_app. unfold len_, chunk, BlockSize in *. lia. }
      destruct (blocks_step (h d) (pending d ++ p) H64) as [Hb Hr].
      assert (Hfirst : firstn 64 (pending d ++ p) = pending d ++ slice_to p (chunk - nx d)).
      { rewrite firstn_app. unfold slice_to. f_equal.
        - apply firstn_all2. unfold len_, chunk, BlockSize in *. lia.
        - f_equal. unfold len_, chunk, BlockSize in *. lia. }
      assert (Hskip : skipn 64 (pending d ++ p) = slice_from p (chunk - nx d)).
      { rewrite skipn_app. unfold slice_from.
        rewrite skipn_all2 by (unfold len_, chunk, BlockSize in *; lia).
        cbn [app]. f_equal. unfold len_, chunk, BlockSize in *. lia. }
      rewrite Hb, Hr, Hfirst, Hskip.
      replace (Z.to_nat (len_ (pending d ++ slice_to p (chunk - nx d)) / chunk)) with 1%nat
        by (rewrite Hlen; reflexivity).
      cbn [block_loop].
      rewrite firstn_all2
        by (unfold len_ in Hlen; assert (chunk = 64) by reflexivity; lia).
      split; reflexivity.
    + (* the buffer stays partly filled *)
      assert (Hmin : Z.min (len_ (x d) - nx d) (len_ p) = len_ p) by lia.
      rewrite Hmin in *.
      rewrite (slice_to_all p) by lia. rewrite (slice_from_all p) by lia.
      eexists _, _. split; [reflexivity|].
      cbn [set_nx set_x h x nx len].
      repeat split; try assumption.
      * rewrite !len_app, len_slice_from by lia. lia.
      * right. repeat split; try lia.
        -- unfold pending at 1. rewrite app_assoc. unfold slice_to.
           cbn [set_nx set_x x nx].
           rewrite firstn_app.
           replace (Z.to_nat (nx d + len_ p) - length (pending d ++ p))%nat with 0%nat
             by (rewrite length_app; unfold len_ in *; lia).
           cbn [firstn]. rewrite app_nil_r. apply firstn_all2.
           rewrite length_app. unfold len_ in *. lia.
        -- rewrite len_app. lia.
  - assert (Hn0 : nx d = 0) by lia.
    eexists _, _. split; [reflexivity|].
    repeat split; try assumption.
    left. unfold pending. rewrite Hn0. change (slice_to (x d) 0) with (@nil byte).
    repeat split.
Qed.

(** ** Write, in the abstract view *)

Lemma Write_spec (d : digest) (p : list byte) :
  wf d ->
  exists d',
    Write d p = Ok (d', (len_ p, nil_error)) /\ wf d' /\
    h d' = blocks (h d) (pending d ++ p) /\
    pending d' = rest (pending d ++ p) /\
    len d' = uint64 (len d + len_ p).
Proof.
  intros Hwf. unfold Write.
  set (d0 := set_len d (uint64 (len d + uint64 (len_ p)))).
  assert (Hwf0 : wf d0).
  { destruct Hwf as (Hx & Hn & _). repeat split; try assumption; try apply Hn;
      cbn [d0 set_len len]; unfold uint64; lia. }
  destruct (Write_top_spec d0 p Hwf0) as (d1 & p1 & Htop & Hlen & Hx & Hcase).
  rewrite Htop. cbn [bind]. rewrite Write_full_spec.
  change (pending d0) with (pending d) in Hcase. change (h d0) with (h d) in Hcase.
  assert (Hl : len d1 = uint64 (len d + len_ p)).
  { rewrite Hlen. cbn [d0 set_len len]. unfold uint64.
    pose proof (len_nonneg p). lia. }
  assert (Hchunk : chunk = 64) by reflexivity.
  destruct Hcase as [(Hn & Hb & Hr) | (Hp1 & Hh & Hpend & Hn & Hrange)].
  - assert (Hshort : len_ (rest p1) < chunk).
    { unfold len_. rewrite rest_length. lia. }
    destruct (Write_keep_spec (set_h d1 (blocks (h d1) p1)) (rest p1) Hx Hshort Hn)
      as (Hh' & Hl' & Hx' & Hn' & Hp').
    cbn [set_h h len] in Hh', Hl'.
    eexists. split; [reflexivity|].
    repeat split.
    + exact Hx'.
    + rewrite Hn'. apply len_nonneg.
    + rewrite Hn'. exact Hshort.
    + rewrite Hl', Hl. unfold uint64. lia.
    + rewrite Hl', Hl. unfold uint64. lia.
    + rewrite Hh'. exact Hb.
    + rewrite Hp'. exact Hr.
    + rewrite Hl'. exact Hl.
  - subst p1.
    assert (Hs : (length (pending d ++ p) < 64)%nat) by (unfold len_ in Hn; lia).
    destruct (blocks_short (h d) (pending d ++ p) Hs) as [Hb Hr].
    change (rest []) with (@nil byte). change (blocks (h d1) []) with (h d1).
    rewrite set_h_same. change (Write_keep d1 []) with d1.
    eexists. split; [reflexivity|].
    repeat split; try lia; try assumption.
    all: try (rewrite Hl; unfold uint64; lia).
    + rewrite Hb. exact Hh.
    + rewrite Hr. exact Hpend.
Qed.

(** Write cannot panic unless the fill-count points beyond the buffer. *)
Lemma Write_total (d : digest) (p : list byte) :
  nx d <= chunk -> exists d', Write d p = Ok (d', (len_ p, nil_error)).
Proof.
  intros Hn. unfold Write, Write_top. cbn [set_len nx x].
  destruct (0 <? nx d).
  - destruct (Z.ltb_spec chunk (nx d)) as [Hbad|_]; [lia|].
    unfold copy. cbn [bind].
    destruct (Write_full _ _) as [d1 p1]. eexists. reflexivity.
  - cbn [bind]. destruct (Write_full _ _) as [d1 p1]. eexists. reflexivity.
Qed.

Lemma blocks_rest_app (hs : words8) (data q : list byte) :
  blocks (blocks hs data) (rest data ++ q) = blocks hs (data ++ q) /\
  rest (rest data ++ q) = rest (data ++ q).
Proof.
  pose proof (rest_length data) as Hrl.
  unfold blocks, rest in *.
  set (n := (length data / 64)%nat) in *.
  assert (Hq : (length (data ++ q) / 64 =
                n + length (skipn (64 * n) data ++ q) / 64)%nat).
  { rewrite !length_app, Hrl. subst n. lia. }
  rewrite Hq, block_loop_add.
  assert (Hle : (64 * n <= length data)%nat) by (subst n; lia).
  assert (Hskip : skipn (64 * n) (data ++ q) = skipn (64 * n) data ++ q).
  { rewrite skipn_app. replace (64 * n - length data)%nat with 0%nat by lia.
    reflexivity. }
  assert (Hfirst : firstn (64 * n) (data ++ q) = firstn (64 * n) data).
  { rewrite firstn_app. replace (64 * n - length data)%nat with 0%nat by lia.
    cbn [firstn]. apply app_nil_r. }
  rewrite Hskip. split.
  - f_equal. rewrite <- (block_loop_firstn n hs (data ++ q)), Hfirst.
    symmetry. apply block_loop_firstn.
  - rewrite <- Hskip, skipn_skipn. f_equal. lia.
Qed.

Lemma Writes_spec (cs : list (list byte)) :
  forall d, wf d ->
  exists d',
    Writes d cs = Ok d' /\ wf d' /\
    h d' = blocks (h d) (pending d ++ concat cs) /\
    pending d' = rest (pending d ++ concat cs) /\
    len d' = uint64 (len d + len_ (concat cs)).
Proof.
  induction cs as [|c cs IH]; intros d Hwf.
  - exists d. cbn [Writes concat]. rewrite app_nil_r.
    assert (Hchunk : chunk = 64) by reflexivity.
    pose proof (pending_length d Hwf) as Hpl.
    assert (Hs : (length (pending d) < 64)%nat).
    { destruct Hwf as (_ & Hn & _). unfold len_ in Hpl. lia. }
    destruct (blocks_short (h d) (pending d) Hs) as [-> ->].
    split; [reflexivity|]. split; [exact Hwf|].
    split; [reflexivity|]. split; [reflexivity|].
    destruct Hwf as (_ & _ & Hl). change (len_ []) with 0. unfold uint64. lia.
  - destruct (Write_spec d c Hwf) as (d1 & HW & Hwf1 & Hh1 & Hp1 & Hl1).
    destruct (IH d1 Hwf1) as (d' & HWs & Hwf' & Hh' & Hp' & Hl').
    exists d'. cbn [Writes concat]. rewrite HW. cbn [bind].
    destruct (blocks_rest_app (h d) (pending d ++ c) (concat cs)) as [Hb Hr].
    rewrite <- app_assoc in Hb, Hr.
    split; [exact HWs|]. split; [exact Hwf'|]. split; [|split].
    + rewrite Hh', Hh1, Hp1. exact Hb.
    + rewrite Hp', Hp1. exact Hr.
    + rewrite Hl', Hl1, len_app. unfold uint64.
      pose proof (len_nonneg c). pose proof (len_nonneg (concat cs)). lia.
Qed.

(** ** Bytes of the padding and of the digest *)

Lemma byte_of_Z_mod (a b : Z) : a mod 256 = b mod 256 -> byte_of_Z a = byte_of_Z b.
Proof. intros Hab. unfold byte_of_Z. rewrite Hab. reflexivity. Qed.

Lemma byte_shiftr_uint64 (a k : Z) :
  0 <= k <= 56 -> byte_of_Z (Z.shiftr (uint64 a) k) = byte_of_Z (a / 2 ^ k).
Proof.
  intros Hk. apply byte_of_Z_mod. change 256 with (2 ^ 8).
  rewrite <- (Z.shiftr_div_pow2 a k) by lia.
  apply Z.bits_inj'. intros i Hi. destruct (Z.ltb_spec i 8) as [Hlo|Hhi].
  - rewrite !Z.mod_pow2_bits_low by lia. rewrite !Z.shiftr_spec by lia.
    unfold uint64. rewrite Z.mod_pow2_bits_low by lia. reflexivity.
  - rewrite !Z.mod_pow2_bits_high by lia. reflexivity.
Qed.

Lemma firstn_repeat {A : Type} (a : A) (k n : nat) :
  (k <= n)%nat -> firstn k (repeat a n) = repeat a k.
Proof.
  revert n. induction k as [|k IH]; intros n Hk; [reflexivity|].
  destruct n as [|n]; [lia|]. cbn [repeat firstn]. f_equal. apply IH. lia.
Qed.

Lemma slice_to_tmp0 (k : Z) :
  1 <= k <= 64 -> slice_to tmp0 k = x80 :: repeat x00 (Z.to_nat (k - 1)).
Proof.
  intros Hk. unfold slice_to.
  replace (Z.to_nat k) with (S (Z.to_nat (k - 1))) by lia.
  change tmp0 with (x80 :: repeat x00 63). cbn [firstn]. f_equal.
  apply firstn_repeat. lia.
Qed.

Lemma putUint64_tmp0 (L : Z) :
  exists t, putUint64 tmp0 (uint64 (Z.shiftl L 3)) = Ok t /\
            slice_to t 8 = be_bytes 8 (L * 8).
Proof.
  eexists. split; [reflexivity|].
  rewrite Z.shiftl_mul_pow2 by lia. change (2 ^ 3) with 8.
  cbn [tmp0 repeat set_index slice_to Z.to_nat Pos.to_nat Pos.iter_op Nat.add firstn be_bytes].
  rewrite <- (Z.shiftr_0_r (uint64 (L * 8))) at 8.
  rewrite !byte_shiftr_uint64 by lia.
  reflexivity.
Qed.

Lemma pad_first (L : Z) :
  (if L mod 64 <? 56 then slice_to tmp0 (56 - L mod 64)
   else slice_to tmp0 (64 + 56 - L mod 64)) =
  x80 :: repeat x00 (Z.to_nat (if L mod 64 <? 56 then 56 - L mod 64 - 1
                               else 64 + 56 - L mod 64 - 1)).
Proof.
  destruct (Z.ltb_spec (L mod 64) 56); rewrite slice_to_tmp0 by lia; reflexivity.
Qed.

Lemma be_bytes_length (n : nat) (v : Z) : length (be_bytes n v) = n.
Proof. induction n as [|n IH]; cbn [be_bytes length]; congruence. Qed.

Lemma len_padding (L : Z) : (L + len_ (padding L)) mod 64 = 0.
Proof.
  unfold padding, len_. cbn [length]. rewrite length_app, repeat_length, be_bytes_length.
  destruct (Z.ltb_spec (L mod 64) 56); lia.
Qed.

Lemma be_bytes_4 (w : Z) :
  be_bytes 4 w = [byte_of_Z (Z.shiftr w 24); byte_of_Z (Z.shiftr w 16);
                  byte_of_Z (Z.shiftr w 8); byte_of_Z w].
Proof.
  cbn [be_bytes]. rewrite !Z.shiftr_div_pow2 by lia.
  change (256 ^ Z.of_nat 3) with (2 ^ 24). change (256 ^ Z.of_nat 2) with (2 ^ 16).
  change (256 ^ Z.of_nat 1) with (2 ^ 8). change (256 ^ Z.of_nat 0) with 1.
  rewrite Z.div_1_r. reflexivity.
Qed.

Lemma serialize_length (hs : words8) : length (serialize hs) = 32%nat.
Proof. unfold serialize. rewrite !length_app, !be_bytes_length. reflexivity. Qed.

(** ** checkSum, in the abstract view *)

Lemma checkSum_pad_spec (d : digest) :
  wf d -> counted d ->
  exists d' pad lenb,
    checkSum_pad d = Ok (d', (pad, lenb)) /\
    (pad = x80 :: repeat x00 (Z.to_nat (if len d mod 64 <? 56
                                        then 56 - len d mod 64 - 1
                                        else 64 + 56 - len d mod 64 - 1)) /\
     lenb = be_bytes 8 (len d * 8)) /\
    wf d' /\ nx d' = 0 /\
    h d' = blocks (h d) (pending d ++ padding (len d)) /\
    len d' = uint64 (len d + len_ (padding (len d))).
Proof.
  intros Hwf Hc. unfold checkSum_pad.
  rewrite pad_first.
  set (pad := x80 :: repeat x00 _).
  destruct (Write_spec d pad Hwf) as (d1 & HW1 & Hwf1 & Hh1 & Hp1 & Hl1).
  rewrite HW1. cbn [bind].
  destruct (putUint64_tmp0 (len d)) as (t & Ht & Hbe).
  rewrite Ht. cbn [bind].
  destruct (Write_spec d1 (slice_to t 8) Hwf1) as (d2 & HW2 & Hwf2 & Hh2 & Hp2 & Hl2).
  rewrite HW2. cbn [bind].
  assert (Hpad : pad ++ slice_to t 8 = padding (len d)).
  { rewrite Hbe. reflexivity. }
  destruct (blocks_rest_app (h d) (pending d ++ pad) (slice_to t 8)) as [Hb Hr].
  rewrite <- app_assoc, Hpad in Hb, Hr.
  rewrite <- Hh1, <- Hp1 in Hb. rewrite <- Hp1 in Hr.
  exists d2, pad, (slice_to t 8).
  split; [reflexivity|]. split; [split; [reflexivity | exact Hbe]|].
  split; [exact Hwf2|].
  assert (Hlen : len d2 = uint64 (len d + len_ (padding (len d)))).
  { rewrite Hl2, Hl1, <- Hpad, len_app. unfold uint64.
    pose proof (len_nonneg pad). pose proof (len_nonneg (slice_to t 8)). lia. }
  split; [|split; [congruence | exact Hlen]].
  rewrite <- (pending_length d2 Hwf2), Hp2, Hr.
  unfold len_. rewrite rest_length, length_app.
  pose proof (pending_length d Hwf) as Hpl. pose proof (len_padding (len d)) as Hz.
  unfold counted in Hc. unfold len_ in *. lia.
Qed.

Lemma checkSum_spec (d : digest) :
  wf d -> counted d ->
  exists d',
    checkSum d = Ok (d', digest_of d) /\
    wf d' /\ nx d' = 0.
Proof.
  intros Hwf Hc.
  destruct (checkSum_pad_spec d Hwf Hc) as (d' & pad & lenb & Hcp & _ & Hwf' & Hn & Hh & _).
  exists d'. split; [|split; assumption].
  unfold checkSum. rewrite Hcp. cbn [bind]. rewrite Hn. cbn [Z.eqb negb].
  unfold digest_of. rewrite <- Hh. unfold serialize. rewrite !be_bytes_4.
  reflexivity.
Qed.

(** ** The invariant along reachable states *)

Lemma wf_Reset (d : digest) : len_ (x d) = chunk -> wf (Reset d) /\ counted (Reset d).
Proof.
  intros Hx. unfold wf, counted, Reset. cbn [set_len set_nx set_h x nx len].
  assert (Hchunk : chunk = 64) by reflexivity.
  repeat split; try assumption; try lia; reflexivity.
Qed.

Lemma wf_New : wf New /\ counted New.
Proof. apply wf_Reset. reflexivity. Qed.

Lemma counted_after (d d' : digest) (data : list byte) :
  wf d -> wf d' -> counted d ->
  pending d' = rest (pending d ++ data) ->
  len d' = uint64 (len d + len_ data) ->
  counted d'.
Proof.
  intros Hwf Hwf' Hc Hp Hl. unfold counted in *.
  rewrite <- (pending_length d' Hwf'), Hp, Hl.
  pose proof (pending_length d Hwf) as Hpl.
  unfold len_ in *. rewrite rest_length, length_app. unfold uint64. lia.
Qed.

Lemma digest_after (d d' : digest) (data : list byte) :
  h d' = blocks (h d) (pending d ++ data) ->
  pending d' = rest (pending d ++ data) ->
  digest_of d' = serialize (blocks (h d) ((pending d ++ data) ++ padding (len d'))).
Proof.
  intros Hh Hp. unfold digest_of. rewrite Hh, Hp.
  f_equal. apply blocks_rest_app.
Qed.

Lemma Write_inv (d : digest) (p : list byte) :
  wf d -> counted d ->
  exists d',
    Write d p = Ok (d', (len_ p, nil_error)) /\ wf d' /\ counted d' /\
    len d' = uint64 (len d + len_ p) /\
    digest_of d' = serialize (blocks (h d) ((pending d ++ p) ++ padding (len d'))).
Proof.
  intros Hwf Hc.
  destruct (Write_spec d p Hwf) as (d' & HW & Hwf' & Hh & Hp & Hl).
  exists d'. split; [exact HW|]. split; [exact Hwf'|].
  split; [exact (counted_after d d' p Hwf Hwf' Hc Hp Hl)|].
  split; [exact Hl|]. apply digest_after; assumption.
Qed.

Lemma Writes_inv (d : digest) (cs : list (list byte)) :
  wf d -> counted d ->
  exists d',
    Writes d cs = Ok d' /\ wf d' /\ counted d' /\
    len d' = uint64 (len d + len_ (concat cs)) /\
    digest_of d' = serialize (blocks (h d) ((pending d ++ concat cs) ++ padding (len d'))).
Proof.
  intros Hwf Hc.
  destruct (Writes_spec cs d Hwf) as (d' & HW & Hwf' & Hh & Hp & Hl).
  exists d'. split; [exact HW|]. split; [exact Hwf'|].
  split; [exact (counted_after d d' (concat cs) Hwf Hwf' Hc Hp Hl)|].
  split; [exact Hl|]. apply digest_after; assumption.
Qed.

Lemma reachable_inv (d : digest) : reachable d -> wf d /\ counted d.
Proof.
  induction 1 as [|d _ [Hwf _]|d p d' r _ [Hwf Hc] HW].
  - exact wf_New.
  - apply wf_Reset. apply Hwf.
  - destruct (Write_inv d p Hwf Hc) as (d1 & HW1 & Hwf1 & Hc1 & _).
    rewrite HW1 in HW. injection HW as <- _. split; assumption.
Qed.

Lemma digest_of_length (d : digest) : len_ (digest_of d) = Size.
Proof. unfold digest_of, len_. rewrite serialize_length. reflexivity. Qed.

Lemma digest_Sum_spec (d : digest) (b : list byte) :
  wf d -> counted d -> digest_Sum d b = Ok (d, b ++ digest_of d).
Proof.
  intros Hwf Hc. unfold digest_Sum.
  destruct (checkSum_spec d Hwf Hc) as (d' & -> & _). reflexivity.
Qed.

Lemma Sum_nil_spec (d : digest) : wf d -> counted d -> Sum_nil d = Ok (digest_of d).
Proof.
  intros Hwf Hc. unfold Sum_nil. rewrite (digest_Sum_spec d [] Hwf Hc). reflexivity.
Qed.

(** What a digest returns after [Reset] and a sequence of writes depends on
    the bytes written alone. *)
Lemma Reset_stream (d : digest) (cs : list (list byte)) :
  len_ (x d) = chunk ->
  (d' <- Writes (Reset d) cs ;; Sum_nil d') =
  Ok (serialize (blocks iv (concat cs ++ padding (uint64 (len_ (concat cs)))))).
Proof.
  intros Hx. destruct (wf_Reset d Hx) as [Hwf Hc].
  destruct (Writes_inv (Reset d) cs Hwf Hc) as (d' & -> & Hwf' & Hc' & Hl & Hd).
  cbn [bind]. rewrite (Sum_nil_spec d' Hwf' Hc'), Hd, Hl. reflexivity.
Qed.

Lemma Sum_spec (data : list byte) :
  Sum data = Ok (serialize (blocks iv (data ++ padding (uint64 (len_ data))))).
Proof.
  unfold Sum. fold New. destruct wf_New as [Hwf Hc].
  destruct (Write_inv New data Hwf Hc) as (d' & -> & Hwf' & Hc' & Hl & Hd).
  cbn [bind]. destruct (checkSum_spec d' Hwf' Hc') as (d2 & -> & _).
  cbn [bind]. rewrite Hd, Hl. reflexivity.
Qed.

Lemma Writes_reachable (cs : list (list byte)) :
  forall d d', reachable d -> Writes d cs = Ok d' -> reachable d'.
Proof.
  induction cs as [|c cs IH]; intros d d' Hr HW; cbn [Writes] in HW.
  - injection HW as <-. exact Hr.
  - destruct (Write d c) as [[d1 r]|] eqn:HW1; [|discriminate]. cbn [bind] in HW.
    apply (IH d1); [|exact HW]. exact (reach_Write d c d1 r Hr HW1).
Qed.

Lemma len_concat_repeat (c : list byte) (k : nat) :
  len_ (concat (repeat c k)) = Z.of_nat k * len_ c.
Proof using Type.
  induction k as [|k IH]; [reflexivity|].
  cbn [repeat concat]. rewrite len_app, IH, Nat2Z.inj_succ. ring.
Qed.

(** * The claims *)

(** C1 (chunking invariance).  For every byte sequence cut into chunks
    [cs] in any way, empty chunks included, a fresh digest fed the chunks by
    successive [Write] calls and then asked for its sum returns the 32 bytes
    that the one-shot [Sum] returns on the concatenation. *)
Theorem chunking_invariance (cs : list (list byte)) :
  exists hash,
    Sum (concat cs) = Ok hash /\ stream cs = Ok hash /\ len_ hash = Size.
Proof.
  exists (serialize (blocks iv (concat cs ++ padding (uint64 (len_ (concat cs)))))).
  split; [apply Sum_spec|]. split.
  - unfold stream, New. apply Reset_stream. reflexivity.
  - unfold len_. rewrite serialize_length. reflexivity.
Qed.

(** C3 (post-padding invariant).  In every reachable state the two padding
    writes of [checkSum] succeed and leave the fill-count at 0, so the
    [panic] branch is not taken and [checkSum] returns a digest. *)
Theorem checkSum_never_panics (d : digest) :
  reachable d ->
  exists d' pad lenb hash,
    checkSum_pad d = Ok (d', (pad, lenb)) /\ nx d' = 0 /\
    checkSum d = Ok (d', hash).
Proof.
  intros Hr. destruct (reachable_inv d Hr) as [Hwf Hc].
  destruct (checkSum_pad_spec d Hwf Hc) as (d' & pad & lenb & Hcp & _ & _ & Hn & _).
  destruct (checkSum_spec d Hwf Hc) as (d2 & Hcs & _).
  exists d', pad, lenb, (digest_of d).
  split; [exact Hcp|]. split; [exact Hn|].
  rewrite Hcs. unfold checkSum in Hcs. rewrite Hcp in Hcs. cbn [bind] in Hcs.
  rewrite Hn in Hcs. cbn [Z.eqb negb] in Hcs.
  destruct (putUint32_at _ _ _) as [b0|]; [|discriminate]. cbn [bind] in Hcs.
  destruct (putUint32_at _ _ _) as [b1|]; [|discriminate]. cbn [bind] in Hcs.
  destruct (putUint32_at _ _ _) as [b2|]; [|discriminate]. cbn [bind] in Hcs.
  destruct (putUint32_at _ _ _) as [b3|]; [|discriminate]. cbn [bind] in Hcs.
  destruct (putUint32_at _ _ _) as [b4|]; [|discriminate]. cbn [bind] in Hcs.
  destruct (putUint32_at _ _ _) as [b5|]; [|discriminate]. cbn [bind] in Hcs.
  destruct (putUint32_at _ _ _) as [b6|]; [|discriminate]. cbn [bind] in Hcs.
  destruct (putUint32_at _ _ _) as [b7|]; [|discriminate]. cbn [bind] in Hcs.
  injection Hcs as <- _. reflexivity.
Qed.


(** C4 (non-destructive Sum).  The [Sum] method hands back its receiver with
    state words, buffer, fill-count and counter as they were; and from any
    reachable state, writing [X], taking the sum, writing [Y] and taking the
    sum again gives the digest of writing [X] then [Y], which is also the
    digest of writing [X ++ Y] at once. *)
Theorem Sum_method_nondestructive (d : digest) (X Y : list byte) :
  reachable d ->
  (forall b, exists out, digest_Sum d b = Ok (d, out)) /\
  exists hash,
    ('(d1, _) <- Write d X ;; '(d2, _) <- digest_Sum d1 [] ;;
     '(d3, _) <- Write d2 Y ;; Sum_nil d3) = Ok hash /\
    ('(d1, _) <- Write d X ;; '(d3, _) <- Write d1 Y ;; Sum_nil d3) = Ok hash /\
    ('(d3, _) <- Write d (X ++ Y) ;; Sum_nil d3) = Ok hash.
Proof.
  intros Hr. destruct (reachable_inv d Hr) as [Hwf Hc]. split.
  - intros b. eexists. apply digest_Sum_spec; assumption.
  - destruct (Write_inv d X Hwf Hc) as (d1 & HW1 & Hwf1 & Hc1 & Hl1 & Hd1).
    destruct (Write_spec d X Hwf) as (d1' & HW1' & _ & Hh1 & Hp1 & _).
    rewrite HW1 in HW1'. injection HW1' as <-.
    destruct (Write_inv d1 Y Hwf1 Hc1) as (d3 & HW3 & Hwf3 & Hc3 & Hl3 & Hd3).
    destruct (Write_inv d (X ++ Y) Hwf Hc) as (d4 & HW4 & Hwf4 & Hc4 & Hl4 & Hd4).
    exists (digest_of d3).
    rewrite HW1. cbn [bind]. rewrite (digest_Sum_spec d1 [] Hwf1 Hc1). cbn [bind].
    rewrite HW3. cbn [bind]. rewrite HW4. cbn [bind].
    rewrite (Sum_nil_spec d3 Hwf3 Hc3), (Sum_nil_spec d4 Hwf4 Hc4).
    split; [reflexivity|]. split; [reflexivity|].
    f_equal. rewrite Hd4, Hd3, Hh1, Hp1.
    destruct (blocks_rest_app (h d) (pending d ++ X) (Y ++ padding (len d3))) as [Hb _].
    rewrite !app_assoc in Hb. rewrite !app_assoc. rewrite Hb.
    replace (len d4) with (len d3); [reflexivity|].
    rewrite Hl3, Hl1, Hl4, len_app. unfold uint64.
    pose proof (len_nonneg X). pose proof (len_nonneg Y). lia.
Qed.

(** C5 (Write totality).  Whatever the bytes [p], the empty slice
    included, [Write] returns [len(p)] and a nil error; it can only panic on
    a digest whose fill-count points beyond the 64-byte buffer, which no
    digest made by [New], [Reset] and [Write] does. *)
Theorem Write_accepts_all (d : digest) (p : list byte) :
  nx d <= chunk ->
  exists d', Write d p = Ok (d', (len_ p, nil_error)).
Proof. apply Write_total. Qed.

(** C6 (initialization).  [Reset] sets the state words to the initialization
    vector and the fill-count and the counter to 0, leaving the buffer bytes
    alone; [New] is [Reset] on a newly allocated digest; and a digest with
    its 64-byte buffer, whatever it held, behaves after [Reset] like a new
    one: the same writes give the same sum. *)
Theorem Reset_initial (d : digest) (cs : list (list byte)) :
  (h (Reset d) = iv /\ nx (Reset d) = 0 /\ len (Reset d) = 0 /\ x (Reset d) = x d) /\
  New = Reset zero_digest /\
  (len_ (x d) = chunk ->
   exists hash,
     (d' <- Writes (Reset d) cs ;; Sum_nil d') = Ok hash /\
     (d' <- Writes New cs ;; Sum_nil d') = Ok hash).
Proof.
  split; [repeat split|]. split; [reflexivity|].
  intros Hx. eexists. split.
  - apply Reset_stream. exact Hx.
  - unfold New. apply Reset_stream. reflexivity.
Qed.

(** C7 (fixed sizes).  [Size] is 32 and [BlockSize] is 64 on every digest;
    the one-shot [Sum] returns 32 bytes on every input; and [checkSum]
    returns 32 bytes in every reachable state. *)
Theorem fixed_sizes :
  (forall d, digest_Size d = 32 /\ digest_BlockSize d = 64) /\
  (forall data, exists hash, Sum data = Ok hash /\ len_ hash = 32) /\
  (forall d, reachable d ->
     exists d' hash, checkSum d = Ok (d', hash) /\ len_ hash = 32).
Proof.
  split; [intros d; split; reflexivity|]. split.
  - intros data. eexists. split; [apply Sum_spec|].
    unfold len_. rewrite serialize_length. reflexivity.
  - intros d Hr. destruct (reachable_inv d Hr) as [Hwf Hc].
    destruct (checkSum_spec d Hwf Hc) as (d' & Hcs & _).
    exists d', (digest_of d). split; [exact Hcs | apply digest_of_length].
Qed.

(** C8 (fill-count invariant), as the code has it.  In every reachable
    state the fill-count is between 0 and 63; a [Write] of [p] leaves it at
    [(nx + len(p)) mod 64], again between 0 and 63, and the counter at
    [(len + len(p)) mod 2^64], which is [len + len(p)] as long as that stays
    below [2^64]. *)
Theorem fill_count_invariant (d : digest) (p : list byte) :
  reachable d ->
  0 <= nx d <= 63 /\
  exists d',
    Write d p = Ok (d', (len_ p, nil_error)) /\
    0 <= nx d' <= 63 /\
    nx d' = (nx d + len_ p) mod 64 /\
    len d' = (len d + len_ p) mod 2 ^ 64 /\
    (len d + len_ p < 2 ^ 64 -> len d' = len d + len_ p).
Proof.
  intros Hr. destruct (reachable_inv d Hr) as [Hwf Hc].
  destruct (Write_inv d p Hwf Hc) as (d' & HW & Hwf' & Hc' & Hl & _).
  assert (Hchunk : chunk = 64) by reflexivity.
  destruct Hwf as (_ & Hn & Hlen). destruct Hwf' as (_ & Hn' & _).
  pose proof (len_nonneg p) as Hp.
  unfold counted, uint64 in *.
  split; [lia|]. exists d'. split; [exact HW|].
  split; [lia|]. split; [lia|]. split; [exact Hl|].
  intros Hsmall. rewrite Hl. apply Z.mod_small. lia.
Qed.

(** C9 (determinism).  The digest depends on the bytes written alone: two
    reachable digests, whatever their histories, return after [Reset] and
    the same writes the same 32 bytes, those of the one-shot [Sum] on the
    concatenated input. *)
Theorem digest_depends_on_input_only (d1 d2 : digest) (cs : list (list byte)) :
  reachable d1 -> reachable d2 ->
  exists hash,
    Sum (concat cs) = Ok hash /\ len_ hash = 32 /\
    (d' <- Writes (Reset d1) cs ;; Sum_nil d') = Ok hash /\
    (d' <- Writes (Reset d2) cs ;; Sum_nil d') = Ok hash.
Proof.
  intros Hr1 Hr2.
  destruct (reachable_inv d1 Hr1) as [(Hx1 & _) _].
  destruct (reachable_inv d2 Hr2) as [(Hx2 & _) _].
  eexists. split; [apply Sum_spec|]. split.
  - unfold len_. rewrite serialize_length. reflexivity.
  - split; apply Reset_stream; assumption.
Qed.

(** C10 (append semantics of the Sum method).  In every reachable state
    [Sum(b)] returns [b] followed by the 32-byte digest, the bytes that
    [checkSum] returns on the state (the serialization of the state words
    after the buffered bytes and the padding): [len(b) + 32] bytes whose
    first [len(b)] are those of [b]; with an empty [b] it returns the digest
    alone. *)
Theorem Sum_method_appends (d : digest) (b : list byte) :
  reachable d ->
  exists d' hash,
    checkSum d = Ok (d', hash) /\
    hash = digest_of d /\
    digest_Sum d b = Ok (d, b ++ hash) /\
    len_ hash = Size /\
    len_ (b ++ hash) = len_ b + Size /\
    slice_to (b ++ hash) (len_ b) = b /\
    slice_from (b ++ hash) (len_ b) = hash /\
    digest_Sum d [] = Ok (d, hash).
Proof.
  intros Hr. destruct (reachable_inv d Hr) as [Hwf Hc].
  destruct (checkSum_spec d Hwf Hc) as (d' & HcS & _).
  exists d', (digest_of d).
  split; [exact HcS|]. split; [reflexivity|].
  split; [apply digest_Sum_spec; assumption|].
  split; [apply digest_of_length|].
  split; [rewrite len_app, digest_of_length; reflexivity|].
  unfold slice_to, slice_from, len_. rewrite Nat2Z.id.
  split; [|split].
  - rewrite firstn_app, Nat.sub_diag, firstn_all. cbn [firstn]. apply app_nil_r.
  - rewrite skipn_app, Nat.sub_diag, skipn_all. reflexivity.
  - apply (digest_Sum_spec d [] Hwf Hc).
Qed.

(** * Further properties of the code *)

(** ** The byte-order helpers *)

Lemma Z_of_byte_of_Z (z : Z) : Z_of_byte (byte_of_Z z) = z mod 256.
Proof using Type.
  unfold Z_of_byte, byte_of_Z.
  pose proof (Z.mod_pos_bound z 256 eq_refl) as Hb.
  destruct (Byte.of_N (Z.to_N (z mod 256))) as [b|] eqn:Hof.
  - apply Byte.to_of_N in Hof. rewrite Hof. apply Z2N.id. apply Hb.
  - apply Byte.of_N_None_iff in Hof.
    apply N2Z.inj_lt in Hof. rewrite Z2N.id in Hof by apply Hb.
    change (Z.of_N 255) with 255 in Hof.
    destruct Hb as [_ Hb]. apply Z.lt_le_pred in Hb. cbn in Hb.
    exfalso. apply (Z.lt_irrefl 255). eapply Z.lt_le_trans; eassumption.
Qed.

Lemma be_decode_acc (l : list byte) :
  forall acc,
    fold_left (fun a b => a * 256 + Z_of_byte b) l acc =
    acc * 256 ^ Z.of_nat (length l) + be_decode l.
Proof using Type.
  unfold be_decode.
  induction l as [|b l IH]; intros acc.
  - cbn [fold_left length]. change (256 ^ Z.of_nat 0) with 1. ring.
  - cbn [fold_left length]. rewrite (IH (acc * 256 + Z_of_byte b)).
    rewrite (IH (0 * 256 + Z_of_byte b)).
    rewrite Nat2Z.inj_succ, Z.pow_succ_r by apply Nat2Z.is_nonneg. ring.
Qed.

(** Decoding undoes the encoding, up to the width. *)
Lemma be_decode_be_bytes (n : nat) (v : Z) :
  be_decode (be_bytes n v) = v mod 256 ^ Z.of_nat n.
Proof using Type.
  induction n as [|n IH].
  - cbn [be_bytes]. change (256 ^ Z.of_nat 0) with 1. rewrite Z.mod_1_r. reflexivity.
  - cbn [be_bytes]. unfold be_decode. cbn [fold_left].
    rewrite be_decode_acc, IH, be_bytes_length, Z_of_byte_of_Z.
    rewrite Nat2Z.inj_succ, Z.pow_succ_r by apply Nat2Z.is_nonneg.
    assert (Hpos : 0 < 256 ^ Z.of_nat n) by (apply Z.pow_pos_nonneg; [reflexivity | apply Nat2Z.is_nonneg]).
    rewrite (Z.mul_comm 256).
    rewrite (Z.rem_mul_r v (256 ^ Z.of_nat n) 256);
      [ring | intros H0; rewrite H0 in Hpos; discriminate Hpos | reflexivity].
Qed.

(** X1.  [putUint64] panics on a slice of fewer than 8 bytes and writes
    nothing; on a longer slice it overwrites exactly the first 8 bytes with
    the big-endian encoding of [s], so that reading them back gives [s]
    (modulo [2^64]), and leaves the length and the other bytes alone. *)
Theorem putUint64_spec (x : list byte) (s : Z) :
  (len_ x <= 7 -> putUint64 x s = Panic "index out of range") /\
  (8 <= len_ x ->
   exists x',
     putUint64 x s = Ok x' /\ len_ x' = len_ x /\
     slice_from x' 8 = slice_from x 8 /\
     slice_to x' 8 = be_bytes 8 s /\
     be_decode (slice_to x' 8) = s mod 2 ^ 64).
Proof using Type.
  clear transform.
  split; intros Hlen; unfold putUint64.
  - destruct (Z.leb_spec (len_ x) 7) as [_|Hgt]; [reflexivity | lia].
  - destruct (Z.leb_spec (len_ x) 7) as [Hle|_]; [lia|].
    destruct x as [|a0 [|a1 [|a2 [|a3 [|a4 [|a5 [|a6 [|a7 tl]]]]]]]];
      try (unfold len_ in Hlen; cbn [length] in Hlen; lia).
    cbn [set_index]. eexists. split; [reflexivity|].
    assert (Hbe : slice_to
                    (byte_of_Z (Z.shiftr s 56) :: byte_of_Z (Z.shiftr s 48)
                     :: byte_of_Z (Z.shiftr s 40) :: byte_of_Z (Z.shiftr s 32)
                     :: byte_of_Z (Z.shiftr s 24) :: byte_of_Z (Z.shiftr s 16)
                     :: byte_of_Z (Z.shiftr s 8) :: byte_of_Z s :: tl) 8 =
                  be_bytes 8 s).
    { unfold slice_to. change (Z.to_nat 8) with 8%nat. cbn [firstn be_bytes].
      rewrite !Z.shiftr_div_pow2 by lia.
      change (256 ^ Z.of_nat 0) with 1. rewrite Z.div_1_r. reflexivity. }
    split; [reflexivity|]. split; [reflexivity|]. split; [exact Hbe|].
    rewrite Hbe. apply (be_decode_be_bytes 8 s).
Qed.

(** X2.  [putUint32] panics on a slice of fewer than 4 bytes; on a longer
    slice it overwrites exactly the first 4 bytes with the big-endian
    encoding of [s], so that reading them back gives [s] (modulo [2^32]),
    and leaves the length and the other bytes alone. *)
Theorem putUint32_spec (x : list byte) (s : Z) :
  (len_ x <= 3 -> putUint32 x s = Panic "index out of range") /\
  (4 <= len_ x ->
   exists x',
     putUint32 x s = Ok x' /\ len_ x' = len_ x /\
     slice_from x' 4 = slice_from x 4 /\
     slice_to x' 4 = be_bytes 4 s /\
     be_decode (slice_to x' 4) = s mod 2 ^ 32).
Proof using Type.
  clear transform.
  split; intros Hlen; unfold putUint32.
  - destruct (Z.leb_spec (len_ x) 3) as [_|Hgt]; [reflexivity | lia].
  - destruct (Z.leb_spec (len_ x) 3) as [Hle|_]; [lia|].
    destruct x as [|a0 [|a1 [|a2 [|a3 tl]]]];
      try (unfold len_ in Hlen; cbn [length] in Hlen; lia).
    cbn [set_index]. eexists. split; [reflexivity|].
    assert (Hbe : slice_to
                    (byte_of_Z (Z.shiftr s 24) :: byte_of_Z (Z.shiftr s 16)
                     :: byte_of_Z (Z.shiftr s 8) :: byte_of_Z s :: tl) 4 =
                  be_bytes 4 s).
    { unfold slice_to. change (Z.to_nat 4) with 4%nat. cbn [firstn].
      symmetry. apply be_bytes_4. }
    split; [reflexivity|]. split; [reflexivity|]. split; [exact Hbe|].
    rewrite Hbe. apply (be_decode_be_bytes 4 s).
Qed.

(** ** Write on its own *)

(** X3.  A zero-length [Write] changes nothing in the digest: state words,
    buffer bytes, fill-count and counter are as before, and it returns 0. *)
Theorem Write_empty (d : digest) :
  wf d -> Write d [] = Ok (d, (0, nil_error)).
Proof.
  intros (Hx & Hn & Hl). assert (Hchunk : chunk = 64) by reflexivity.
  unfold Write. change (len_ (@nil byte)) with 0.
  replace (uint64 (len d + uint64 0)) with (len d)
    by (unfold uint64; rewrite (Z.mod_small 0), Z.add_0_r, Z.mod_small; lia).
  replace (set_len d (len d)) with d by (destruct d; reflexivity).
  assert (Htop : Write_top d [] = Ok (d, [])).
  { unfold Write_top. destruct (Z.ltb_spec 0 (nx d)) as [Hpos|_]; [|reflexivity].
    destruct (Z.ltb_spec chunk (nx d)) as [Hbad|_]; [lia|].
    unfold copy. change (len_ (@nil byte)) with 0.
    replace (Z.min (len_ (x d) - nx d) 0) with 0 by lia.
    rewrite Z.add_0_r. change (slice_to (@nil byte) 0) with (@nil byte).
    change (slice_from (@nil byte) 0) with (@nil byte). cbn [app].
    unfold slice_to, slice_from. rewrite firstn_skipn.
    cbn [set_nx set_x nx x h len].
    destruct (Z.eqb_spec (nx d) chunk) as [Heq|_]; [lia|].
    destruct d; reflexivity. }
  rewrite Htop. cbn [bind]. reflexivity.
Qed.

(** X4.  A [Write] that does not complete a block only buffers: the state
    words are untouched (no transform runs), the fill-count grows by
    [len(p)] and the buffered bytes are the old ones followed by [p]. *)
Theorem Write_short_buffers (d : digest) (p : list byte) :
  wf d -> nx d + len_ p < chunk ->
  exists d',
    Write d p = Ok (d', (len_ p, nil_error)) /\
    h d' = h d /\ nx d' = nx d + len_ p /\ pending d' = pending d ++ p.
Proof.
  intros Hwf Hshort. assert (Hchunk : chunk = 64) by reflexivity.
  destruct (Write_spec d p Hwf) as (d' & HW & Hwf' & Hh & Hp & _).
  pose proof (pending_length d Hwf) as Hpl.
  pose proof (pending_length d' Hwf') as Hpl'.
  assert (Hs : (length (pending d ++ p) < 64)%nat).
  { rewrite length_app. unfold len_ in *. lia. }
  destruct (blocks_short (h d) (pending d ++ p) Hs) as [Hb Hr].
  exists d'. split; [exact HW|]. rewrite Hb in Hh. rewrite Hr in Hp.
  split; [exact Hh|]. split; [|exact Hp].
  rewrite <- Hpl', Hp, len_app, Hpl. reflexivity.
Qed.

Lemma block_loop_chunks (n : nat) :
  forall hs p, block_loop n hs p = fold_left transform (chunks n p) hs.
Proof.
  induction n as [|n IH]; intros hs p; cbn [block_loop chunks fold_left].
  - reflexivity.
  - apply IH.
Qed.

(** X5.  With an empty buffer, a [Write] of a whole number of blocks goes
    straight to the transform: the buffer bytes are not touched, the
    fill-count stays 0, and the state words are the transform folded over
    the 64-byte blocks of [p] in order. *)
Theorem Write_aligned_bypasses_buffer (d : digest) (p : list byte) :
  wf d -> nx d = 0 -> len_ p mod 64 = 0 ->
  exists d',
    Write d p = Ok (d', (len_ p, nil_error)) /\
    x d' = x d /\ nx d' = 0 /\
    h d' = fold_left transform (chunks (length p / 64) p) (h d).
Proof.
  intros (Hx & Hn & Hl) Hn0 Hmod.
  assert (Hrest : rest p = []).
  { apply length_zero_iff_nil. rewrite rest_length. unfold len_ in Hmod. lia. }
  unfold Write, Write_top. cbn [set_len nx].
  rewrite Hn0. cbn [Z.ltb Z.compare bind].
  rewrite Write_full_spec, Hrest. cbn [set_len set_h h].
  change (Write_keep ?e []) with e.
  eexists. split; [reflexivity|]. cbn [set_h set_len x nx h].
  split; [reflexivity|]. split; [exact Hn0|].
  unfold blocks. apply block_loop_chunks.
Qed.

(** X6.  Writing chunk after chunk and writing the concatenation at once
    lead to digests with the same state words, fill-count, counter and
    buffered bytes, from every well-formed state; only stale bytes beyond
    the fill-count can differ. *)
Theorem Writes_equiv_Write_concat (d : digest) (cs : list (list byte)) :
  wf d ->
  exists d1 d2,
    Writes d cs = Ok d1 /\
    Write d (concat cs) = Ok (d2, (len_ (concat cs), nil_error)) /\
    equiv d1 d2.
Proof.
  intros Hwf.
  destruct (Writes_spec cs d Hwf) as (d1 & HW1 & Hwf1 & Hh1 & Hp1 & Hl1).
  destruct (Write_spec d (concat cs) Hwf) as (d2 & HW2 & Hwf2 & Hh2 & Hp2 & Hl2).
  exists d1, d2. split; [exact HW1|]. split; [exact HW2|].
  unfold equiv. split; [congruence|]. split; [congruence|]. split; [|congruence].
  rewrite <- (pending_length d1 Hwf1), <- (pending_length d2 Hwf2). congruence.
Qed.

(** X7.  Bytes of the buffer beyond the fill-count never matter: two
    well-formed digests with the same state words, fill-count, counter and
    buffered bytes stay so under any further writes, and their [Sum]
    methods return the same bytes. *)
Theorem stale_buffer_bytes_ignored
    (d1 d2 : digest) (cs : list (list byte)) (b : list byte) :
  wf d1 -> wf d2 -> counted d1 -> equiv d1 d2 ->
  exists d1' d2' out,
    Writes d1 cs = Ok d1' /\ Writes d2 cs = Ok d2' /\ equiv d1' d2' /\
    digest_Sum d1' b = Ok (d1', out) /\ digest_Sum d2' b = Ok (d2', out).
Proof.
  intros Hwf1 Hwf2 Hc1 (Eh & Ep & En & El).
  assert (Hc2 : counted d2) by (unfold counted in *; congruence).
  destruct (Writes_spec cs d1 Hwf1) as (d1' & HW1 & Hwf1' & Hh1 & Hp1 & Hl1).
  destruct (Writes_spec cs d2 Hwf2) as (d2' & HW2 & Hwf2' & Hh2 & Hp2 & Hl2).
  assert (Hc1' : counted d1') by exact (counted_after d1 d1' _ Hwf1 Hwf1' Hc1 Hp1 Hl1).
  assert (Hc2' : counted d2') by exact (counted_after d2 d2' _ Hwf2 Hwf2' Hc2 Hp2 Hl2).
  assert (Eh' : h d1' = h d2') by congruence.
  assert (Ep' : pending d1' = pending d2') by congruence.
  assert (El' : len d1' = len d2') by congruence.
  exists d1', d2', (b ++ digest_of d1').
  split; [exact HW1|]. split; [exact HW2|]. split.
  - unfold equiv. split; [exact Eh'|]. split; [exact Ep'|]. split; [|exact El'].
    rewrite <- (pending_length d1' Hwf1'), <- (pending_length d2' Hwf2'). congruence.
  - split; [apply digest_Sum_spec; assumption|].
    rewrite (digest_Sum_spec d2' b Hwf2' Hc2'). unfold digest_of.
    rewrite Eh', Ep', El'. reflexivity.
Qed.

(** ** checkSum on its own *)

(** The padding writes from any well-formed state, whether or not the
    fill-count follows the counter. *)
Lemma checkSum_pad_gen (d : digest) :
  wf d ->
  exists d' pad lenb,
    checkSum_pad d = Ok (d', (pad, lenb)) /\
    wf d' /\ nx d' = (nx d - len d) mod 64 /\
    h d' = blocks (h d) (pending d ++ padding (len d)) /\
    len d' = uint64 (len d + len_ (padding (len d))).
Proof.
  intros Hwf. unfold checkSum_pad.
  rewrite pad_first.
  set (pad := x80 :: repeat x00 _).
  destruct (Write_spec d pad Hwf) as (d1 & HW1 & Hwf1 & Hh1 & Hp1 & Hl1).
  rewrite HW1. cbn [bind].
  destruct (putUint64_tmp0 (len d)) as (t & Ht & Hbe).
  rewrite Ht. cbn [bind].
  destruct (Write_spec d1 (slice_to t 8) Hwf1) as (d2 & HW2 & Hwf2 & Hh2 & Hp2 & Hl2).
  rewrite HW2. cbn [bind].
  assert (Hpad : pad ++ slice_to t 8 = padding (len d)).
  { rewrite Hbe. reflexivity. }
  destruct (blocks_rest_app (h d) (pending d ++ pad) (slice_to t 8)) as [Hb Hr].
  rewrite <- app_assoc, Hpad in Hb, Hr.
  rewrite <- Hh1, <- Hp1 in Hb. rewrite <- Hp1 in Hr.
  exists d2, pad, (slice_to t 8).
  split; [reflexivity|]. split; [exact Hwf2|].
  split; [|split; [congruence|]].
  - rewrite <- (pending_length d2 Hwf2), Hp2, Hr.
    unfold len_. rewrite rest_length, length_app.
    pose proof (pending_length d Hwf) as Hpl. pose proof (len_padding (len d)) as Hz.
    unfold len_ in *. lia.
  - rewrite Hl2, Hl1, <- Hpad, len_app. unfold uint64.
    pose proof (len_nonneg pad). pose proof (len_nonneg (slice_to t 8)). lia.
Qed.

(** After the padding writes, [checkSum] returns the serialization of the
    state words if the buffer is empty, and panics otherwise. *)
Lemma checkSum_after_pad (d d' : digest) (r : list byte * list byte) :
  checkSum_pad d = Ok (d', r) ->
  (nx d' = 0 -> checkSum d = Ok (d', serialize (h d'))) /\
  (nx d' <> 0 -> checkSum d = Panic "d.nx != 0").
Proof.
  intros Hcp. unfold checkSum. rewrite Hcp. split; intros Hn.
  - cbn [bind]. rewrite Hn. cbn [Z.eqb negb].
    unfold serialize. rewrite !be_bytes_4. reflexivity.
  - cbn [bind]. destruct (Z.eqb_spec (nx d') 0) as [Hz|_]; [contradiction|reflexivity].
Qed.

(** X8.  The guard of [checkSum] is the test of the fill-count against the
    byte counter: from a well-formed state [checkSum] returns the digest
    when [nx = len mod 64], and panics with [d.nx != 0] when it is not. *)
Theorem checkSum_guard (d : digest) :
  wf d ->
  (nx d = len d mod 64 -> exists d', checkSum d = Ok (d', digest_of d)) /\
  (nx d <> len d mod 64 -> checkSum d = Panic "d.nx != 0").
Proof.
  intros Hwf.
  destruct (checkSum_pad_gen d Hwf) as (d' & pad & lenb & Hcp & Hwf' & Hn & Hh & _).
  destruct Hwf as (_ & Hnx & _). assert (Hchunk : chunk = 64) by reflexivity.
  split; intros Hc.
  - exists d'. assert (Hn0 : nx d' = 0) by (rewrite Hn, Hc; lia).
    rewrite (proj1 (checkSum_after_pad d d' _ Hcp) Hn0).
    unfold digest_of. rewrite Hh. reflexivity.
  - apply (proj2 (checkSum_after_pad d d' _ Hcp)).
    intros Hz. apply Hc. rewrite Hn in Hz. lia.
Qed.

(** X9.  [checkSum] changes the digest it runs on, which is why the [Sum]
    method runs it on a copy: on a reachable state it returns the
    serialization of the state words it leaves behind, with an empty buffer
    and a byte counter that has moved on to a multiple of 64. *)
Theorem checkSum_moves_receiver (d : digest) :
  reachable d ->
  exists d' hash,
    checkSum d = Ok (d', hash) /\ hash = serialize (h d') /\
    nx d' = 0 /\ len d' mod 64 = 0 /\ len d' <> len d.
Proof.
  intros Hr. destruct (reachable_inv d Hr) as [Hwf Hc].
  destruct (checkSum_pad_gen d Hwf) as (d' & pad & lenb & Hcp & Hwf' & Hn & Hh & Hl).
  destruct Hwf as (_ & Hnx & Hlen). assert (Hchunk : chunk = 64) by reflexivity.
  unfold counted in Hc.
  assert (Hn0 : nx d' = 0) by (rewrite Hn, Hc; lia).
  exists d', (serialize (h d')).
  split; [exact (proj1 (checkSum_after_pad d d' _ Hcp) Hn0)|].
  split; [reflexivity|]. split; [exact Hn0|].
  pose proof (len_padding (len d)) as Hz.
  assert (Hpl : 9 <= len_ (padding (len d)) <= 72).
  { unfold padding, len_. cbn [length].
    rewrite length_app, repeat_length, be_bytes_length.
    destruct (Z.ltb_spec (len d mod 64) 56); lia. }
  set (k := len_ (padding (len d))) in *.
  rewrite Hl. unfold uint64. change (2 ^ 64) with (64 * 288230376151711744) in *.
  split.
  - rewrite Z.mod_mod_divide by (exists 288230376151711744; ring). exact Hz.
  - intros Heq.
    destruct (Z.ltb_spec (len d + k) (64 * 288230376151711744)) as [Hlt|Hge].
    + rewrite Z.mod_small in Heq by lia. lia.
    + replace (len d + k) with (len d + k - 64 * 288230376151711744 + 1 * (64 * 288230376151711744)) in Heq by ring.
      rewrite Z.mod_add in Heq by lia. rewrite Z.mod_small in Heq by lia. lia.
Qed.

(** X10.  Finalization runs the transform once when fewer than 56 bytes are
    buffered and twice otherwise, on the buffered bytes followed by the
    padding: 64 bytes in the first case, 128 in the second. *)
Theorem finalization_transform_count (d : digest) :
  reachable d ->
  exists d' hash,
    checkSum d = Ok (d', hash) /\
    let m := pending d ++ padding (len d) in
    (nx d < 56 -> len_ m = 64 /\ h d' = transform (h d) m) /\
    (56 <= nx d ->
     len_ m = 128 /\
     h d' = transform (transform (h d) (firstn 64 m)) (skipn 64 m)).
Proof.
  intros Hr. destruct (reachable_inv d Hr) as [Hwf Hc].
  destruct (checkSum_pad_gen d Hwf) as (d' & pad & lenb & Hcp & Hwf' & Hn & Hh & Hl).
  pose proof (pending_length d Hwf) as Hpl.
  destruct Hwf as (_ & Hnx & Hlen). assert (Hchunk : chunk = 64) by reflexivity.
  unfold counted in Hc.
  assert (Hn0 : nx d' = 0) by (rewrite Hn, Hc; lia).
  exists d', (serialize (h d')).
  split; [exact (proj1 (checkSum_after_pad d d' _ Hcp) Hn0)|].
  cbv zeta.
  assert (Hm : len_ (pending d ++ padding (len d)) =
               if nx d <? 56 then 64 else 128).
  { rewrite len_app, Hpl. unfold padding, len_. cbn [length].
    rewrite length_app, repeat_length, be_bytes_length. rewrite <- Hc.
    destruct (Z.ltb_spec (nx d) 56); lia. }
  set (m := pending d ++ padding (len d)) in *.
  split; intros Hcase.
  - destruct (Z.ltb_spec (nx d) 56) as [_|Hbad]; [|lia].
    split; [exact Hm|]. rewrite Hh. unfold blocks.
    assert (Hlen64 : length m = 64%nat) by (unfold len_ in Hm; lia).
    rewrite Hlen64. change (64 / 64)%nat with 1%nat. cbn [block_loop].
    rewrite firstn_all2 by lia. reflexivity.
  - destruct (Z.ltb_spec (nx d) 56) as [Hbad|_]; [lia|].
    split; [exact Hm|]. rewrite Hh. unfold blocks.
    assert (Hlen128 : length m = 128%nat) by (unfold len_ in Hm; lia).
    rewrite Hlen128. change (128 / 64)%nat with 2%nat. cbn [block_loop].
    rewrite (firstn_all2 (n := 64) (skipn 64 m)) by (rewrite length_skipn; lia).
    reflexivity.
Qed.

(** X11.  Whenever [checkSum] returns, the 32 bytes are the state words of
    the digest it leaves behind, in order, each on four bytes with the most
    significant byte first: reading the bytes [4i .. 4i+3] back as a
    big-endian number gives word [i] modulo [2^32]. *)
Theorem checkSum_output_big_endian (d d' : digest) (hash : list byte) :
  checkSum d = Ok (d', hash) ->
  len_ hash = Size /\
  forall i, (i < 8)%nat ->
    be_decode (firstn 4 (skipn (4 * i) hash)) =
    nth i [w0 (h d'); w1 (h d'); w2 (h d'); w3 (h d');
           w4 (h d'); w5 (h d'); w6 (h d'); w7 (h d')] 0 mod 2 ^ 32.
Proof.
  intros HcS. destruct (checkSum_pad d) as [[d1 r]|msg] eqn:Hcp;
    [|unfold checkSum in HcS; rewrite Hcp in HcS; discriminate HcS].
  destruct (checkSum_after_pad d d1 r Hcp) as [Hok Hpanic].
  destruct (Z.eq_dec (nx d1) 0) as [Hn|Hn];
    [|rewrite (Hpanic Hn) in HcS; discriminate HcS].
  rewrite (Hok Hn) in HcS. injection HcS as <- <-.
  split; [unfold len_; rewrite serialize_length; reflexivity|].
  intros i Hi. unfold serialize.
  do 8 (destruct i as [|i];
        [cbn [be_bytes app Nat.mul Nat.add skipn firstn nth];
         apply (be_decode_be_bytes 4)|]).
  lia.
Qed.

(** ** The digest as an iterated transform *)

Lemma be_bytes_8_uint64 (a : Z) :
  be_bytes 8 a =
  map (fun k => byte_of_Z (Z.shiftr (uint64 a) k)) [56; 48; 40; 32; 24; 16; 8; 0].
Proof.
  cbn [map]. rewrite !byte_shiftr_uint64 by lia. reflexivity.
Qed.

(** The padding depends on the byte counter modulo [2^64] only. *)
Lemma padding_uint64 (L : Z) : padding (uint64 L) = padding L.
Proof.
  unfold padding.
  assert (Hm : uint64 L mod 64 = L mod 64).
  { unfold uint64. apply Z.mod_mod_divide. exists 288230376151711744. reflexivity. }
  rewrite Hm. do 2 f_equal.
  rewrite (be_bytes_8_uint64 (uint64 L * 8)), (be_bytes_8_uint64 (L * 8)).
  unfold uint64. rewrite Z.mul_mod_idemp_l by lia. reflexivity.
Qed.

Lemma chunks_concat (n : nat) :
  forall p, length p = (64 * n)%nat -> concat (chunks n p) = p.
Proof.
  induction n as [|n IH]; intros p Hp; cbn [chunks concat].
  - symmetry. apply length_zero_iff_nil. lia.
  - rewrite IH by (rewrite length_skipn; lia). apply firstn_skipn.
Qed.

(** X12.  The one-shot [Sum] is the transform folded from the initial
    vector over the 64-byte blocks of the padded message, then serialized:
    the padded message [data ++ padding] has a length that is a multiple of
    64, its blocks cover it, and no slice length is excluded. *)
Theorem Sum_is_iterated_transform (data : list byte) :
  let m := data ++ padding (len_ data) in
  let bs := chunks (length m / 64) m in
  len_ m mod 64 = 0 /\ concat bs = m /\
  Sum data = Ok (serialize (fold_left transform bs iv)).
Proof.
  cbv zeta.
  assert (Hm : len_ (data ++ padding (len_ data)) mod 64 = 0).
  { rewrite len_app. apply len_padding. }
  split; [exact Hm|]. split.
  - apply chunks_concat. unfold len_ in *. lia.
  - rewrite Sum_spec, padding_uint64. unfold blocks.
    rewrite block_loop_chunks. reflexivity.
Qed.

(** X13.  After any sequence of writes to a new digest, the state words are
    the transform folded over the complete 64-byte blocks of everything
    written, the buffer holds exactly the bytes after the last complete
    block, the fill-count is their number and the counter is the total
    length modulo [2^64]. *)
Theorem Writes_from_New_state (cs : list (list byte)) :
  exists d,
    Writes New cs = Ok d /\
    let data := concat cs in
    h d = fold_left transform (chunks (length data / 64) data) iv /\
    pending d = skipn (64 * (length data / 64)) data /\
    nx d = len_ data mod 64 /\
    len d = len_ data mod 2 ^ 64.
Proof.
  destruct wf_New as [Hwf _].
  destruct (Writes_spec cs New Hwf) as (d & HW & Hwf' & Hh & Hp & Hl).
  change (pending New ++ concat cs) with (concat cs) in Hh, Hp.
  exists d. split; [exact HW|]. cbv zeta.
  split; [rewrite Hh; unfold blocks; apply block_loop_chunks|].
  split; [exact Hp|]. split; [|exact Hl].
  rewrite <- (pending_length d Hwf'), Hp. unfold len_. rewrite rest_length. lia.
Qed.

End Streaming.

(** * Concrete runs with the standard transform *)


(** Against C8 as worded: after [2^34 - 1] writes of [2^30] bytes the counter
    is [2^64 - 2^30], and one more such write takes it to 0 instead of
    adding [2^30]. *)
Lemma length_counter_wraps :
  exists d d' r,
    Writes Compress.transform New
      (repeat (repeat x00 (Z.to_nat (2 ^ 30))) (Z.to_nat (2 ^ 34 - 1))) = Ok d /\
    reachable Compress.transform d /\
    len d = 2 ^ 64 - 2 ^ 30 /\
    Write Compress.transform d (repeat x00 (Z.to_nat (2 ^ 30))) = Ok (d', r) /\
    len d' = 0 /\
    len d' <> len d + len_ (repeat x00 (Z.to_nat (2 ^ 30))).
Proof.
  assert (Hgen : forall n k : nat,
             Z.of_nat n = 2 ^ 30 -> Z.of_nat k = 2 ^ 34 - 1 ->
             exists d d' r,
               Writes Compress.transform New (repeat (repeat x00 n) k) = Ok d /\
               reachable Compress.transform d /\
               len d = 2 ^ 64 - 2 ^ 30 /\
               Write Compress.transform d (repeat x00 n) = Ok (d', r) /\
               len d' = 0 /\
               len d' <> len d + len_ (repeat x00 n)).
  { intros n k Hn Hk.
    assert (Hc : len_ (repeat x00 n) = 2 ^ 30).
    { unfold len_. rewrite repeat_length. exact Hn. }
    destruct (wf_New) as [Hwf Hcn].
    destruct (Writes_inv Compress.transform New (repeat (repeat x00 n) k) Hwf Hcn)
      as (d & HW & Hwfd & Hcd & Hl & _).
    rewrite len_concat_repeat, Hc, Hk in Hl.
    change (len New) with 0 in Hl.
    assert (Hld : len d = 2 ^ 64 - 2 ^ 30) by (rewrite Hl; reflexivity).
    destruct (Write_inv Compress.transform d (repeat x00 n) Hwfd Hcd)
      as (d' & HW' & _ & _ & Hl' & _).
    rewrite Hc, Hld in Hl'.
    assert (Hld' : len d' = 0) by (rewrite Hl'; reflexivity).
    exists d, d', (len_ (repeat x00 n), nil_error).
    split; [exact HW|].
    split; [exact (Writes_reachable Compress.transform _ _ _
                     (reach_New Compress.transform) HW)|].
    split; [exact Hld|]. split; [exact HW'|]. split; [exact Hld'|].
    rewrite Hld', Hld, Hc. lia. }
  apply Hgen; apply Z2Nat.id; [apply Z.pow_nonneg|]; lia.
Qed.

(** The claims on concrete inputs: the digest after writing "abc", and the
    new digest. *)


Lemma checkSum_never_panics_witness :
  reachable Compress.transform New /\
  exists d' pad lenb hash,
    checkSum_pad Compress.transform New = Ok (d', (pad, lenb)) /\ nx d' = 0 /\
    checkSum Compress.transform New = Ok (d', hash).
Proof.
  split; [apply reach_New|].
  apply (checkSum_never_panics Compress.transform New). apply reach_New.
Defined.

Lemma Sum_method_nondestructive_witness :
  reachable Compress.transform New /\
  (forall b, exists out, digest_Sum Compress.transform New b = Ok (New, out)) /\
  exists hash,
    ('(d1, _) <- Write Compress.transform New [x61; x62] ;;
     '(d2, _) <- digest_Sum Compress.transform d1 [] ;;
     '(d3, _) <- Write Compress.transform d2 [x63] ;;
     Sum_nil Compress.transform d3) = Ok hash /\
    ('(d1, _) <- Write Compress.transform New [x61; x62] ;;
     '(d3, _) <- Write Compress.transform d1 [x63] ;;
     Sum_nil Compress.transform d3) = Ok hash /\
    ('(d3, _) <- Write Compress.transform New ([x61; x62] ++ [x63]) ;;
     Sum_nil Compress.transform d3) = Ok hash.
Proof.
  split; [apply reach_New|].
  apply (Sum_method_nondestructive Compress.transform New [x61; x62] [x63]).
  apply reach_New.
Defined.

Lemma Write_accepts_all_witness :
  nx New <= chunk /\
  exists d', Write Compress.transform New [x61; x62; x63] =
             Ok (d', (len_ [x61; x62; x63], nil_error)).
Proof.
  split; [vm_compute; discriminate|].
  apply (Write_accepts_all Compress.transform New [x61; x62; x63]).
  vm_compute. discriminate.
Defined.

Lemma Reset_initial_witness :
  len_ (x (mkDigest zero_words (repeat xff 64) 7 7)) = chunk /\
  exists hash,
    (d' <- Writes Compress.transform
             (Reset (mkDigest zero_words (repeat xff 64) 7 7)) [[x61]; [x62; x63]] ;;
     Sum_nil Compress.transform d') = Ok hash /\
    (d' <- Writes Compress.transform New [[x61]; [x62; x63]] ;;
     Sum_nil Compress.transform d') = Ok hash.
Proof.
  split; [reflexivity|].
  apply (proj2 (proj2 (Reset_initial Compress.transform
                         (mkDigest zero_words (repeat xff 64) 7 7)
                         [[x61]; [x62; x63]]))).
  reflexivity.
Defined.

Lemma fixed_sizes_witness :
  reachable Compress.transform New /\
  exists d' hash, checkSum Compress.transform New = Ok (d', hash) /\ len_ hash = 32.
Proof.
  split; [apply reach_New|].
  apply (proj2 (proj2 (fixed_sizes Compress.transform)) New). apply reach_New.
Defined.

Lemma fill_count_invariant_witness :
  reachable Compress.transform New /\
  0 <= nx New <= 63 /\
  exists d',
    Write Compress.transform New [x61; x62; x63] =
      Ok (d', (len_ [x61; x62; x63], nil_error)) /\
    0 <= nx d' <= 63 /\
    nx d' = (nx New + len_ [x61; x62; x63]) mod 64 /\
    len d' = (len New + len_ [x61; x62; x63]) mod 2 ^ 64 /\
    (len New + len_ [x61; x62; x63] < 2 ^ 64 ->
     len d' = len New + len_ [x61; x62; x63]).
Proof.
  split; [apply reach_New|].
  apply (fill_count_invariant Compress.transform New [x61; x62; x63]).
  apply reach_New.
Defined.

Lemma digest_depends_on_input_only_witness :
  reachable Compress.transform New /\
  reachable Compress.transform (Reset New) /\
  exists hash,
    Sum Compress.transform (concat [[x61]; [x62; x63]]) = Ok hash /\
    len_ hash = 32 /\
    (d' <- Writes Compress.transform (Reset New) [[x61]; [x62; x63]] ;;
     Sum_nil Compress.transform d') = Ok hash /\
    (d' <- Writes Compress.transform (Reset (Reset New)) [[x61]; [x62; x63]] ;;
     Sum_nil Compress.transform d') = Ok hash.
Proof.
  split; [apply reach_New|]. split; [apply reach_Reset, reach_New|].
  apply (digest_depends_on_input_only Compress.transform New (Reset New)
           [[x61]; [x62; x63]]).
  - apply reach_New.
  - apply reach_Reset, reach_New.
Defined.

Lemma Sum_method_appends_witness :
  reachable Compress.transform New /\
  exists d' hash,
    checkSum Compress.transform New = Ok (d', hash) /\
    hash = digest_of Compress.transform New /\
    digest_Sum Compress.transform New [x01; x02] = Ok (New, [x01; x02] ++ hash) /\
    len_ hash = Size /\
    len_ ([x01; x02] ++ hash) = len_ [x01; x02] + Size /\
    slice_to ([x01; x02] ++ hash) (len_ [x01; x02]) = [x01; x02] /\
    slice_from ([x01; x02] ++ hash) (len_ [x01; x02]) = hash /\
    digest_Sum Compress.transform New [] = Ok (New, hash).
Proof.
  split; [apply reach_New|].
  apply (Sum_method_appends Compress.transform New [x01; x02]). apply reach_New.
Defined.

(** ** Instances of the further properties *)

Lemma putUint64_spec_witness :
  (len_ [x01; x02; x03] <= 7 /\
   putUint64 [x01; x02; x03] 258 = Panic "index out of range") /\
  (8 <= len_ (repeat xff 10) /\
   exists x', putUint64 (repeat xff 10) 258 = Ok x' /\
     len_ x' = len_ (repeat xff 10) /\
     slice_from x' 8 = slice_from (repeat xff 10) 8 /\
     slice_to x' 8 = be_bytes 8 258 /\
     be_decode (slice_to x' 8) = 258 mod 2 ^ 64).
Proof.
  split; split.
  - vm_compute; discriminate.
  - apply (proj1 (putUint64_spec [x01; x02; x03] 258)). vm_compute; discriminate.
  - vm_compute; discriminate.
  - apply (proj2 (putUint64_spec (repeat xff 10) 258)). vm_compute; discriminate.
Defined.

Lemma putUint32_spec_witness :
  (len_ [x01; x02; x03] <= 3 /\
   putUint32 [x01; x02; x03] 258 = Panic "index out of range") /\
  (4 <= len_ (repeat xff 6) /\
   exists x', putUint32 (repeat xff 6) 258 = Ok x' /\
     len_ x' = len_ (repeat xff 6) /\
     slice_from x' 4 = slice_from (repeat xff 6) 4 /\
     slice_to x' 4 = be_bytes 4 258 /\
     be_decode (slice_to x' 4) = 258 mod 2 ^ 32).
Proof.
  split; split.
  - vm_compute; discriminate.
  - apply (proj1 (putUint32_spec [x01; x02; x03] 258)). vm_compute; discriminate.
  - vm_compute; discriminate.
  - apply (proj2 (putUint32_spec (repeat xff 6) 258)). vm_compute; discriminate.
Defined.

Lemma Write_empty_witness :
  wf (mkDigest iv (x61 :: repeat xff 63) 1 1) /\
  Write Compress.transform (mkDigest iv (x61 :: repeat xff 63) 1 1) [] =
    Ok (mkDigest iv (x61 :: repeat xff 63) 1 1, (0, nil_error)).
Proof.
  split.
  - repeat split; vm_compute; congruence.
  - apply (Write_empty Compress.transform). repeat split; vm_compute; congruence.
Defined.

Lemma Write_short_buffers_witness :
  wf (mkDigest iv (x61 :: repeat xff 63) 1 1) /\
  nx (mkDigest iv (x61 :: repeat xff 63) 1 1) + len_ [x62; x63] < chunk /\
  exists d',
    Write Compress.transform (mkDigest iv (x61 :: repeat xff 63) 1 1) [x62; x63] =
      Ok (d', (len_ [x62; x63], nil_error)) /\
    h d' = h (mkDigest iv (x61 :: repeat xff 63) 1 1) /\
    nx d' = nx (mkDigest iv (x61 :: repeat xff 63) 1 1) + len_ [x62; x63] /\
    pending d' = pending (mkDigest iv (x61 :: repeat xff 63) 1 1) ++ [x62; x63].
Proof.
  split; [repeat split; vm_compute; congruence|].
  split; [vm_compute; reflexivity|].
  apply (Write_short_buffers Compress.transform).
  - repeat split; vm_compute; congruence.
  - vm_compute; reflexivity.
Defined.

Lemma Write_aligned_bypasses_buffer_witness :
  wf New /\ nx New = 0 /\ len_ (repeat x61 128) mod 64 = 0 /\
  exists d',
    Write Compress.transform New (repeat x61 128) =
      Ok (d', (len_ (repeat x61 128), nil_error)) /\
    x d' = x New /\ nx d' = 0 /\
    h d' = fold_left Compress.transform
             (chunks (length (repeat x61 128) / 64) (repeat x61 128)) (h New).
Proof.
  split; [repeat split; vm_compute; congruence|].
  split; [reflexivity|]. split; [reflexivity|].
  apply (Write_aligned_bypasses_buffer Compress.transform).
  - repeat split; vm_compute; congruence.
  - reflexivity.
  - reflexivity.
Defined.

Lemma Writes_equiv_Write_concat_witness :
  wf (mkDigest iv (x61 :: repeat xff 63) 1 1) /\
  exists d1 d2,
    Writes Compress.transform (mkDigest iv (x61 :: repeat xff 63) 1 1)
      [[x62]; []; repeat x63 70] = Ok d1 /\
    Write Compress.transform (mkDigest iv (x61 :: repeat xff 63) 1 1)
      (concat [[x62]; []; repeat x63 70]) =
      Ok (d2, (len_ (concat [[x62]; []; repeat x63 70]), nil_error)) /\
    equiv d1 d2.
Proof.
  split; [repeat split; vm_compute; congruence|].
  apply (Writes_equiv_Write_concat Compress.transform).
  repeat split; vm_compute; congruence.
Defined.

Lemma stale_buffer_bytes_ignored_witness :
  wf New /\ wf (mkDigest iv (repeat xff 64) 0 0) /\ counted New /\
  equiv New (mkDigest iv (repeat xff 64) 0 0) /\
  exists d1' d2' out,
    Writes Compress.transform New [[x61]; [x62; x63]] = Ok d1' /\
    Writes Compress.transform (mkDigest iv (repeat xff 64) 0 0) [[x61]; [x62; x63]] =
      Ok d2' /\
    equiv d1' d2' /\
    digest_Sum Compress.transform d1' [x01] = Ok (d1', out) /\
    digest_Sum Compress.transform d2' [x01] = Ok (d2', out).
Proof.
  split; [repeat split; vm_compute; congruence|].
  split; [repeat split; vm_compute; congruence|].
  split; [reflexivity|]. split; [repeat split|].
  apply (stale_buffer_bytes_ignored Compress.transform).
  - repeat split; vm_compute; congruence.
  - repeat split; vm_compute; congruence.
  - reflexivity.
  - repeat split.
Defined.

Lemma checkSum_guard_witness :
  (wf New /\ nx New = len New mod 64 /\
   exists d', checkSum Compress.transform New = Ok (d', digest_of Compress.transform New)) /\
  (wf (mkDigest iv (repeat x00 64) 1 0) /\
   nx (mkDigest iv (repeat x00 64) 1 0) <> len (mkDigest iv (repeat x00 64) 1 0) mod 64 /\
   checkSum Compress.transform (mkDigest iv (repeat x00 64) 1 0) = Panic "d.nx != 0").
Proof.
  split.
  - split; [repeat split; vm_compute; congruence|]. split; [reflexivity|].
    apply (proj1 (checkSum_guard Compress.transform New
                    ltac:(repeat split; vm_compute; congruence))).
    reflexivity.
  - split; [repeat split; vm_compute; congruence|]. split; [vm_compute; discriminate|].
    apply (proj2 (checkSum_guard Compress.transform (mkDigest iv (repeat x00 64) 1 0)
                    ltac:(repeat split; vm_compute; congruence))).
    vm_compute; discriminate.
Defined.

Lemma checkSum_moves_receiver_witness :
  reachable Compress.transform New /\
  exists d' hash,
    checkSum Compress.transform New = Ok (d', hash) /\ hash = serialize (h d') /\
    nx d' = 0 /\ len d' mod 64 = 0 /\ len d' <> len New.
Proof.
  split; [apply reach_New|].
  apply (checkSum_moves_receiver Compress.transform New). apply reach_New.
Defined.

Lemma finalization_transform_count_witness :
  (reachable Compress.transform New /\ nx New < 56 /\
   exists d' hash,
     checkSum Compress.transform New = Ok (d', hash) /\
     len_ (pending New ++ padding (len New)) = 64 /\
     h d' = Compress.transform (h New) (pending New ++ padding (len New))) /\
  (exists d,
     Write Compress.transform New (repeat x61 60) = Ok (d, (60, nil_error)) /\
     56 <= nx d /\
     exists d' hash,
       checkSum Compress.transform d = Ok (d', hash) /\
       len_ (pending d ++ padding (len d)) = 128 /\
       h d' = Compress.transform
                (Compress.transform (h d) (firstn 64 (pending d ++ padding (len d))))
                (skipn 64 (pending d ++ padding (len d)))).
Proof.
  split.
  - split; [apply reach_New|]. split; [reflexivity|].
    destruct (finalization_transform_count Compress.transform New
                (reach_New Compress.transform)) as (d' & hash & Hc & H1 & _).
    exists d', hash. split; [exact Hc|]. apply H1. reflexivity.
  - eexists. split; [reflexivity|]. split; [vm_compute; discriminate|].
    destruct (finalization_transform_count Compress.transform _
                (reach_Write Compress.transform New (repeat x61 60) _ _
                   (reach_New Compress.transform) eq_refl))
      as (d' & hash & Hc & _ & H2).
    exists d', hash. split; [exact Hc|]. apply H2. vm_compute; discriminate.
Defined.

Lemma checkSum_output_big_endian_witness :
  checkSum Compress.transform New =
    Ok (mkDigest (W8 447880579 1439670655 2388728136 837294735
                     582928583 687799156 2127574507 1350740523)
                 (x80 :: repeat x00 63) 0 64,
        map byte_of_Z
          [26; 178; 29; 131; 85; 207; 161; 127; 142; 97; 25; 72; 49; 232; 26; 143;
           34; 190; 200; 199; 40; 254; 251; 116; 126; 208; 53; 235; 80; 130; 170; 43]) /\
  len_ (map byte_of_Z
          [26; 178; 29; 131; 85; 207; 161; 127; 142; 97; 25; 72; 49; 232; 26; 143;
           34; 190; 200; 199; 40; 254; 251; 116; 126; 208; 53; 235; 80; 130; 170; 43]) = Size /\
  forall i, (i < 8)%nat ->
    be_decode
      (firstn 4
         (skipn (4 * i)
            (map byte_of_Z
               [26; 178; 29; 131; 85; 207; 161; 127; 142; 97; 25; 72; 49; 232; 26; 143;
                34; 190; 200; 199; 40; 254; 251; 116; 126; 208; 53; 235; 80; 130; 170; 43]))) =
    nth i [447880579; 1439670655; 2388728136; 837294735;
           582928583; 687799156; 2127574507; 1350740523] 0 mod 2 ^ 32.
Proof.
  split; [vm_compute; reflexivity|].
  apply (checkSum_output_big_endian Compress.transform New
           (mkDigest (W8 447880579 1439670655 2388728136 837294735
                         582928583 687799156 2127574507 1350740523)
                     (x80 :: repeat x00 63) 0 64)).
  vm_compute; reflexivity.
Defined.
